(** * Mertens notebook: prime factorisation, Möbius and Mertens functions

    A shallow embedding of the code cell of [mertens/Mertens.ipynb]
    (Python 3.8): the generator [sieve] and the functions [prime_factors],
    [mu] and [M], with the list [Ms] built in the third cell.

    Conventions.
    - Python integers are unbounded: [Z].
    - [n /= p] is Python 3 true division: its result is a [float] (IEEE
      binary64) whatever the operands, the double nearest to the exact
      quotient, and [OverflowError] when that quotient is beyond the largest
      double.  The loop of [prime_factors] only divides under the guard
      [n % p == 0], so the exact quotient is an integer and every float the
      loop holds is integral; such a float is represented by the integer it
      denotes, and the rounding to 53 significant bits is written out in
      [float_of_Z], which is proved equal to the conversion of the Standard
      Library's specification of IEEE arithmetic ([float_of_Z_binary64]).
    - On these operands [%] and [!=] give the same answers for [int] and
      [float]: a float of [2^53] or more is even, so that the loop divides
      it by 2 and no larger [p] is ever converted to a float.
    - A generator is a value of [gen]; [next] returns the yielded value
      together with the advanced generator.  [itertools.count] never ends,
      so [StopIteration] does not arise.
    - Loops and recursion are unbounded in Python; they run here on a fuel
      counter, the last argument of each function, and [c ⇓ r] says that
      every large enough fuel gives the outcome [r].  The recursion limit of
      the interpreter and the memory of the machine are left out. *)

From Stdlib Require Import ZArith Zdivisibility Lia Sorted.

From Stdlib Require SpecFloat.

From stdpp Require Import base tactics option numbers list sets gmap sorting.

Local Open Scope Z_scope.

(** * The code *)

(** ** Outcomes of a computation *)

Inductive exn : Set := OverflowError | ZeroDivisionError.

Inductive result (A : Type) : Type :=
| Return (a : A)
| Raise (e : exn)
| OutOfFuel.

Arguments Return {A} a.

Arguments Raise {A} e.

Arguments OutOfFuel {A}.

#[global] Instance exn_eq_dec : EqDecision exn.
Proof. solve_decision. Defined.

#[global] Instance result_eq_dec `{EqDecision A} : EqDecision (result A).
Proof. solve_decision. Defined.

#[global] Instance result_ret : MRet result := @Return.

#[global] Instance result_bind : MBind result := λ A B f m,
  match m with
  | Return a => f a
  | Raise e => Raise e
  | OutOfFuel => OutOfFuel
  end.

(** [c ⇓ r]: the fuel-indexed computation [c] settles on the outcome [r]. *)
Definition evaluates {A} (c : nat → result A) (r : result A) : Prop :=
  r ≠ OutOfFuel ∧ ∃ k0 : nat, ∀ k : nat, (k0 ≤ k)%nat → c k = r.

Infix "⇓" := evaluates (at level 70, no associativity).

(** [c] never settles: it runs out of every fuel. *)
Definition diverges {A} (c : nat → result A) : Prop :=
  ∀ k : nat, c k = OutOfFuel.

(** ** Python arithmetic *)

(** [a % b] on integral operands: floor remainder, [ZeroDivisionError] for
    a zero divisor. *)
Definition py_mod (a b : Z) : result Z :=
  if bool_decide (b = 0) then Raise ZeroDivisionError else Return (a `mod` b).

(** Round the magnitude [a] to a multiple of [2 ^ e], nearest, ties to the
    even multiple. *)
Definition round_half_even (a e : Z) : Z :=
  let m := a `div` 2 ^ e in
  let r := a `mod` 2 ^ e in
  let h := 2 ^ (e - 1) in
  let m' := if bool_decide (r < h) then m
            else if bool_decide (h < r) then m + 1
            else if Z.even m then m else m + 1 in
  m' * 2 ^ e.

(** The double nearest to the integer [z], as the integer it denotes.  Up
    to 53 bits the conversion is exact; above, the unit in the last place is
    [2 ^ (Z.log2 |z| - 52)]. *)
Definition float_of_Z (z : Z) : result Z :=
  let a := Z.abs z in
  let e := Z.log2 a - 52 in
  if bool_decide (e ≤ 0) then Return z
  else
    let v := round_half_even a e in
    if bool_decide (2 ^ 1024 ≤ v) then Raise OverflowError
    else Return (Z.sgn z * v).

(** [a / b] where [b] divides [a] (the only use in the source): the
    correctly rounded quotient. *)
Definition truediv (a b : Z) : result Z :=
  if bool_decide (b = 0) then Raise ZeroDivisionError
  else float_of_Z (a `div` b).

(** ** Generators *)

(** The three iterators of the source: [itertools.count(start)], the
    generator expression [(i for i in s if i%n!=0)] and [sieve(s)]. *)
Inductive gen : Set :=
| count (start : Z)
| genexpr (n : Z) (s : gen)
| sieve (s : gen).

(** One [next(g)].
    - [count]: yield the counter and advance it.
    - [genexpr n s]: pull from [s] until a value passes the filter.
    - [sieve s]: [n = next(s); yield n], then delegate to
      [sieve(i for i in s if i%n!=0)]. *)
Fixpoint next (g : gen) (fuel : nat) : result (Z * gen) :=
  match fuel with
  | O => OutOfFuel
  | S fuel =>
    match g with
    | count c => Return (c, count (c + 1))
    | genexpr n s =>
      '(i, s') ← next s fuel;
      r ← py_mod i n;
      if bool_decide (r ≠ 0) then Return (i, genexpr n s')
      else next (genexpr n s') fuel
    | sieve s =>
      '(n, s') ← next s fuel;
      Return (n, sieve (genexpr n s'))
    end
  end.

(** ** prime_factors *)

(** The [for p in sieve(...)] loop of [prime_factors], up to its [break]:
    the first yielded [p] with [n%p==0]. *)
Fixpoint for_p (n : Z) (g : gen) (fuel : nat) : result Z :=
  match fuel with
  | O => OutOfFuel
  | S fuel =>
    '(p, g') ← next g fuel;
    r ← py_mod n p;
    if bool_decide (r = 0) then Return p else for_p n g' fuel
  end.

(** The [while n != 1] loop: find [p], append it, divide, repeat. *)
Fixpoint while_loop (n : Z) (factors : list Z) (fuel : nat) : result (list Z) :=
  match fuel with
  | O => OutOfFuel
  | S fuel =>
    if bool_decide (n ≠ 1) then
      p ← for_p n (sieve (count 2)) fuel;
      n' ← truediv n p;
      while_loop n' (factors ++ [p]) fuel
    else Return factors
  end.

Definition prime_factors (n : Z) (fuel : nat) : result (list Z) :=
  if bool_decide (n = 1) then Return []
  else while_loop n [] fuel.

(** ** mu and M *)

(** The decision of [mu] on the computed factors: [len(factors)] against
    [len(set(factors))], then the parity of the length. *)
Definition mu_of_factors (factors : list Z) : Z :=
  let l := length factors in
  if bool_decide (l ≠ size (list_to_set factors : gset Z)) then 0
  else if bool_decide ((l `mod` 2)%nat = 0%nat) then 1 else -1.

Definition mu (n : Z) (fuel : nat) : result Z :=
  factors ← prime_factors n fuel;
  Return (mu_of_factors factors).

Fixpoint M (n : Z) (fuel : nat) : result Z :=
  match fuel with
  | O => OutOfFuel
  | S fuel =>
    if bool_decide (n = 1) then mu n fuel
    else
      a ← mu n fuel;
      b ← M (n - 1) fuel;
      Return (a + b)
  end.

(** ** The third cell of the notebook *)

(** A list comprehension [[f(x) for x in l]]. *)
Fixpoint comprehension {A B} (f : A → nat → result B) (l : list A)
    (fuel : nat) : result (list B) :=
  match l with
  | [] => Return []
  | x :: l =>
    y ← f x fuel;
    ys ← comprehension f l fuel;
    Return (y :: ys)
  end.

(** [Ms = [M(n) for n in ns]] with [ns = 1, ..., N], as in the third cell of
    the notebook: every [M(n)] is computed on its own. *)
Definition Ms (N : Z) : nat → result (list Z) :=
  comprehension M (seqZ 1 N).

(** * Definitions for the specification *)

(** ** The forward pass *)

(** The forward pass of the specification: a running total that starts
    at [mu(1)] and to which [mu(n)] is added at each further [n]. *)
Fixpoint forward_from (ns : list Z) (total : Z) (fuel : nat)
    : result (list Z) :=
  match ns with
  | [] => Return []
  | n :: ns =>
    v ← mu n fuel;
    rest ← forward_from ns (total + v) fuel;
    Return (total + v :: rest)
  end.

Definition forward_pass (N : Z) (fuel : nat) : result (list Z) :=
  match seqZ 1 N with
  | [] => Return []
  | n :: ns =>
    total ← mu n fuel;
    rest ← forward_from ns total fuel;
    Return (total :: rest)
  end.

(** ** Outcomes *)

(** More fuel does not change a settled outcome. *)
Definition monotone {A} (c : nat → result A) : Prop :=
  ∀ k k' : nat, (k ≤ k')%nat → c k ≠ OutOfFuel → c k' = c k.

(** An outcome of the code on a valid input: a value or [OverflowError]. *)
Definition settled_overflow {A} (r : result A) : Prop :=
  match r with
  | Return _ => True
  | Raise e => e = OverflowError
  | OutOfFuel => False
  end.

(** No fuel gives a value, and the only exception is the overflow of the
    float division. *)
Definition no_value {A} (c : nat → result A) : Prop :=
  ∀ k, match c k with
       | Return _ => False
       | Raise e => e = OverflowError
       | OutOfFuel => True
       end.

(** The call fails with an exception. *)
Definition rejects {A} (c : nat → result A) : Prop := ∃ e, c ⇓ Raise e.

(** Sums of outcomes, evaluated from left to right. *)
Definition add_results (x y : result Z) : result Z :=
  a ← x; b ← y; Return (a + b).

Definition sum_results (rs : list (result Z)) : result Z :=
  foldr add_results (Return 0) rs.

(** ** IEEE binary64 *)

(** The integer denoted by a float of the Standard Library's specification
    of IEEE arithmetic, when it is integral; an infinity stands for
    Python's [OverflowError]. *)
Definition Z_of_spec_float (f : SpecFloat.spec_float) : result Z :=
  match f with
  | SpecFloat.S754_zero _ => Return 0
  | SpecFloat.S754_finite s m e =>
    Return (SpecFloat.cond_Zopp s
              (if bool_decide (0 ≤ e) then Z.pos m * 2 ^ e
               else Z.pos m `div` 2 ^ (- e)))
  | _ => Raise OverflowError
  end.

(** The binary64 nearest to [z]: 53 bits of precision, exponents up to
    1024. *)
Definition binary64_of_Z (z : Z) : result Z :=
  Z_of_spec_float (SpecFloat.binary_normalize 53 1024 z 0 false).

(** ** Divisors and primes *)

(** [d] is the least divisor of [n] among 2, 3, 4, ... *)
Definition least_divisor (n d : Z) : Prop :=
  2 ≤ d ∧ (d | n) ∧ ∀ i, 2 ≤ i < d → ¬ (i | n).

#[global] Instance Z_divide_dec (a b : Z) : Decision (a | b).
Proof.
  refine (cast_if
    (decide (Is_true ((b =? 0) || negb (a =? 0) && (b `mod` a =? 0)))));
    abstract (by destruct (Z.BoolSpec_divide a b)).
Defined.

Definition product (l : list Z) : Z := foldr Z.mul 1 l.

(** [n] has no square prime factor. *)
Definition squarefree (n : Z) : Prop :=
  ∀ p, Z.prime p → ¬ (p * p | n).

(** [ps] lists the distinct primes dividing [n], each once. *)
Definition distinct_prime_factors (n : Z) (ps : list Z) : Prop :=
  NoDup ps ∧ ∀ p, p ∈ ps ↔ Z.prime p ∧ (p | n).

(** Primality by trial division. *)
#[global] Instance Z_prime_dec p : Decision (Z.prime p).
Proof.
  refine (cast_if
    (decide (1 < p ∧ Forall (λ d, ¬ (d | p)) (seqZ 2 (p - 2))))).
  - abstract (
      match goal with H : _ ∧ _ |- _ => destruct H as [H1 H2] end;
      rewrite Forall_seqZ in H2; split; [done|];
      intros d Hd; apply H2; lia).
  - abstract (
      intros [H1 H2]; match goal with H : ¬ _ |- _ => apply H end;
      split; [done|]; apply Forall_seqZ; intros d Hd; apply H2; lia).
Defined.

(** ** States of the sieve *)

(** The generator reached after the sieve has yielded the values [fs]
    (latest first) and the counter has advanced to [c]. *)
Fixpoint chain (fs : list Z) (c : Z) : gen :=
  match fs with
  | [] => count c
  | f :: fs => genexpr f (chain fs c)
  end.

(** [i] passes every filter of the chain. *)
Definition passes (fs : list Z) (i : Z) : Prop :=
  Forall (λ f, i `mod` f ≠ 0) fs.

#[global] Instance passes_dec fs i : Decision (passes fs i).
Proof. unfold passes. apply _. Defined.

Fixpoint counter (g : gen) : Z :=
  match g with
  | count c => c
  | genexpr _ s => counter s
  | sieve s => counter s
  end.

Fixpoint filters (g : gen) : list Z :=
  match g with
  | count _ => []
  | genexpr n s => n :: filters s
  | sieve s => filters s
  end.

(** The counter and every installed filter are at least 2. *)
Definition gen_ok (g : gen) : Prop :=
  2 ≤ counter g ∧ Forall (λ f, 2 ≤ f) (filters g).

(** ** The loop of [prime_factors], step by step *)

(** One run of [while n != 1] from the quotient [n] with [factors] already
    found: each round removes the least divisor and rounds the quotient. *)
Inductive loop_run : Z → list Z → result (list Z) → Prop :=
| run_done factors :
    loop_run 1 factors (Return factors)
| run_raise n factors d e :
    n ≠ 1 → least_divisor n d → float_of_Z (n `div` d) = Raise e →
    loop_run n factors (Raise e)
| run_step n factors d n' r :
    n ≠ 1 → least_divisor n d → float_of_Z (n `div` d) = Return n' →
    loop_run n' (factors ++ [d]) r →
    loop_run n factors r.

(** ** Consuming a generator *)

(** [k] successive calls of [next(g)], as a [for] loop over [g] makes
    them: the first [k] values of the generator. *)
Fixpoint first_values (k : nat) (g : gen) (fuel : nat) : result (list Z) :=
  match k with
  | O => Return []
  | S k =>
    '(x, g') ← next g fuel;
    xs ← first_values k g' fuel;
    Return (x :: xs)
  end.

(** ** Integers that are doubles *)

(** Converting [z] to a float does not change it. *)
Definition representable (z : Z) : Prop := float_of_Z z = Return z.

(** ** The Möbius function *)

(** [v] is the value of the Möbius function at [n]: 0 when the square of a
    prime divides [n], and [(-1)^k] when [n] is the product of [k] distinct
    primes. *)
Definition moebius_value (n v : Z) : Prop :=
  ((∃ p, Z.prime p ∧ (p * p | n)) → v = 0) ∧
  (∀ ps, squarefree n → distinct_prime_factors n ps →
         v = (-1) ^ Z.of_nat (length ps)).

(** * Outcomes and fuel *)

Section Fuel.
Context {A : Type}.
Implicit Types (c : nat → result A) (r : result A).

Lemma evaluates_det c r r' : c ⇓ r → c ⇓ r' → r = r'.
Proof.
  intros [_ [k Hk]] [_ [k' Hk']].
  rewrite <- (Hk (k `max` k')%nat), <- (Hk' (k `max` k')%nat); [done | lia..].
Qed.

Lemma monotone_evaluates c k r :
  monotone c → c k = r → r ≠ OutOfFuel → c ⇓ r.
Proof.
  intros Hc <- Hr. split; [done|]. exists k. intros k' Hk'. by apply Hc.
Qed.

Lemma evaluates_not_diverges c r : c ⇓ r → ¬ diverges c.
Proof. intros [Hr [k Hk]] Hd. apply Hr. rewrite <- (Hk k), Hd; [done | lia]. Qed.

Lemma diverges_not_evaluates c r : diverges c → ¬ c ⇓ r.
Proof. intros Hd Hc. by eapply evaluates_not_diverges. Qed.

End Fuel.

Lemma bind_settled {A B} (m : result A) (f : A → result B) :
  m ≫= f ≠ OutOfFuel → m ≠ OutOfFuel.
Proof. by destruct m. Qed.

Lemma next_monotone g : monotone (next g).
Proof.
  intros k. revert g. induction k as [|k IH]; intros g k' Hk Hs; [done|].
  destruct k' as [|k']; [lia|].
  destruct g as [c | n s | s]; simpl in *; [done | |].
  - pose proof (bind_settled _ _ Hs) as E.
    rewrite (IH s k' ltac:(lia) E).
    destruct (next s k) as [[i s'] | |]; simpl in *; [|done..].
    destruct (py_mod i n) as [r | |]; simpl in *; [|done..].
    case_bool_decide; [done|]. apply IH; [lia | done].
  - pose proof (bind_settled _ _ Hs) as E.
    by rewrite (IH s k' ltac:(lia) E).
Qed.

Lemma for_p_monotone n g : monotone (for_p n g).
Proof.
  intros k. revert g. induction k as [|k IH]; intros g k' Hk Hs; [done|].
  destruct k' as [|k']; [lia|]. simpl in *.
  pose proof (bind_settled _ _ Hs) as E.
  rewrite (next_monotone g k k' ltac:(lia) E).
  destruct (next g k) as [[p g'] | |]; simpl in *; [|done..].
  destruct (py_mod n p) as [r | |]; simpl in *; [|done..].
  case_bool_decide; [done|]. apply IH; [lia | done].
Qed.

Lemma while_loop_monotone n factors : monotone (while_loop n factors).
Proof.
  intros k. revert n factors.
  induction k as [|k IH]; intros n factors k' Hk Hs; [done|].
  destruct k' as [|k']; [lia|]. simpl in *.
  case_bool_decide; [|done].
  pose proof (bind_settled _ _ Hs) as E.
  rewrite (for_p_monotone n _ k k' ltac:(lia) E).
  destruct (for_p n _ k) as [p | |]; simpl in *; [|done..].
  destruct (truediv n p) as [n' | |]; simpl in *; [|done..].
  apply IH; [lia | done].
Qed.

Lemma prime_factors_monotone n : monotone (prime_factors n).
Proof.
  intros k k' Hk Hs. unfold prime_factors in *.
  case_bool_decide; [done|]. by apply while_loop_monotone.
Qed.

Lemma mu_monotone n : monotone (mu n).
Proof.
  intros k k' Hk Hs. unfold mu in *.
  pose proof (bind_settled _ _ Hs) as E.
  by rewrite (prime_factors_monotone n k k' Hk E).
Qed.

Lemma M_monotone n : monotone (M n).
Proof.
  intros k. revert n. induction k as [|k IH]; intros n k' Hk Hs; [done|].
  destruct k' as [|k']; [lia|]. simpl in *.
  case_bool_decide; [apply mu_monotone; [lia | done]|].
  pose proof (bind_settled _ _ Hs) as E.
  rewrite (mu_monotone n k k' ltac:(lia) E).
  destruct (mu n k) as [a | |]; simpl in *; [|done..].
  pose proof (bind_settled _ _ Hs) as E'.
  by rewrite (IH (n - 1) k' ltac:(lia) E').
Qed.

(** * Divisors *)

Lemma least_from (P : Z → Prop) `{!∀ i, Decision (P i)} c q :
  c ≤ q → P q → ∃ i0, c ≤ i0 ≤ q ∧ P i0 ∧ ∀ i, c ≤ i < i0 → ¬ P i.
Proof.
  intros Hcq HPq.
  remember (Z.to_nat (q - c)) as m eqn:Hm.
  revert c Hcq Hm. induction m as [|m IH]; intros c Hcq Hm.
  - assert (c = q) as -> by lia. exists q. repeat split; [lia.. | done | lia].
  - destruct (decide (P c)) as [HPc | HPc].
    + exists c. repeat split; [lia.. | done | lia].
    + destruct (IH (c + 1)) as (i0 & Hi0 & HPi0 & Hleast); [lia.. |].
      exists i0. repeat split; [lia.. | done |].
      intros i Hi. destruct (decide (i = c)) as [-> | Hne]; [done|].
      apply Hleast. lia.
Qed.

Lemma least_divisor_exists n : 2 ≤ n → ∃ d, least_divisor n d ∧ d ≤ n.
Proof.
  intros Hn.
  destruct (least_from (λ i, (i | n)) 2 n) as (d & Hd & Hdn & Hleast);
    [done.. |].
  exists d. by repeat split; [lia | | | lia].
Qed.

Lemma least_divisor_unique n d d' :
  least_divisor n d → least_divisor n d' → d = d'.
Proof.
  intros (Hd & Hdn & Hl) (Hd' & Hdn' & Hl').
  destruct (Z.lt_trichotomy d d') as [Hlt | [-> | Hlt]]; [|done|].
  - by destruct (Hl' d).
  - by destruct (Hl d').
Qed.

Lemma least_divisor_prime n d : least_divisor n d → Z.prime d.
Proof.
  intros (Hd & Hdn & Hleast). split; [lia|].
  intros i Hi Hid. destruct (Hleast i); [lia|]. by etrans.
Qed.

(** * The sieve *)

Lemma next_chain fs c q k :
  Forall (λ f, f ≠ 0) fs →
  c ≤ q → passes fs q → (∀ i, c ≤ i < q → ¬ passes fs i) →
  (Z.to_nat (q - c) + length fs < k)%nat →
  next (chain fs c) k = Return (q, chain fs (q + 1)).
Proof.
  revert c q k. induction fs as [|f fs IH]; intros c q k Hnz Hcq Hq Hleast Hk.
  - assert (q = c) as ->.
    { destruct (decide (q = c)) as [|Hne]; [done|].
      destruct (Hleast c); [lia | constructor]. }
    destruct k as [|k]; [simpl in Hk; lia | done].
  - apply Forall_cons in Hnz as [Hf Hnz].
    remember (Z.to_nat (q - c)) as m eqn:Hm.
    revert c k Hcq Hleast Hk Hm.
    induction (lt_wf m) as [m _ IHm]; intros c k Hcq Hleast Hk Hm.
    pose proof Hq as [Hqf Hqfs]%Forall_cons.
    destruct (least_from (passes fs) c q) as (i0 & Hi0 & Hpi0 & Hli0);
      [done.. |].
    destruct k as [|k]; [lia|]. simpl in Hk |- *.
    rewrite (IH c i0 k); [|done | lia | done | done | lia]. simpl.
    unfold py_mod. rewrite bool_decide_eq_false_2 by done. simpl.
    case_bool_decide as Hmod.
    + assert (i0 = q) as ->; [|done].
      destruct (decide (i0 = q)) as [|Hne]; [done|].
      destruct (Hleast i0); [lia|]. by constructor.
    + assert (i0 ≠ q) by (intros ->; done).
      apply (IHm (Z.to_nat (q - (i0 + 1)))); [lia.. | | simpl; lia | done].
      intros i Hi. apply Hleast. lia.
Qed.

Lemma next_sieve_chain fs c q k :
  Forall (λ f, f ≠ 0) fs →
  c ≤ q → passes fs q → (∀ i, c ≤ i < q → ¬ passes fs i) →
  (Z.to_nat (q - c) + length fs + 1 < k)%nat →
  next (sieve (chain fs c)) k = Return (q, sieve (chain (q :: fs) (q + 1))).
Proof.
  intros Hnz Hcq Hq Hleast Hk. destruct k as [|k]; [lia|]. simpl.
  by rewrite (next_chain fs c q k); [|done..|lia].
Qed.

(** The [for] loop of [prime_factors] stops at the least divisor of [n]:
    the filters installed so far do not divide [n], and they knock out every
    candidate below the counter. *)
Lemma for_p_chain n d fs c k :
  least_divisor n d →
  2 ≤ c ≤ d →
  Forall (λ f, 2 ≤ f ∧ ¬ (f | n)) fs →
  (∀ i, 2 ≤ i < c → ¬ passes fs i) →
  (2 * Z.to_nat (d - c) + length fs + 3 ≤ k)%nat →
  for_p n (sieve (chain fs c)) k = Return d.
Proof.
  intros (Hd & Hdn & Hleast).
  remember (Z.to_nat (d - c)) as m eqn:Hm.
  revert c fs k Hm. induction (lt_wf m) as [m _ IH].
  intros c fs k Hm Hc Hfs Hcov Hk.
  assert (Hnz : Forall (λ f, f ≠ 0) fs).
  { eapply Forall_impl; [exact Hfs|]. simpl. lia. }
  assert (Hpd : passes fs d).
  { eapply Forall_impl; [exact Hfs|]. simpl. intros f [Hf Hfn] Hmod.
    apply Hfn. etrans; [|done]. apply Z.mod_divide; [lia | done]. }
  destruct (least_from (passes fs) c d) as (q & Hq & Hpq & Hlq);
    [lia | done |].
  destruct k as [|k]; [lia|]. simpl.
  rewrite (next_sieve_chain fs c q k); [|done | lia | done | done | lia].
  simpl. unfold py_mod. rewrite bool_decide_eq_false_2 by lia. simpl.
  case_bool_decide as Hmod.
  - f_equal. apply Z.mod_divide in Hmod; [|lia].
    destruct (decide (q = d)) as [|Hne]; [done|].
    destruct (Hleast q); [lia | done].
  - assert (q ≠ d).
    { intros ->. apply Hmod. apply Z.mod_divide; [lia | done]. }
    apply (IH (Z.to_nat (d - (q + 1))) ltac:(lia) (q + 1) (q :: fs));
      [done | lia | | | simpl; lia].
    + constructor; [|done]. split; [lia|]. intros Hqn.
      apply Hmod. apply Z.mod_divide; [lia | done].
    + intros i Hi Hp. apply Forall_cons in Hp as [Hiq Hp].
      destruct (decide (i = q)) as [-> | Hiq'].
      { apply Hiq. apply Z_mod_same_full. }
      destruct (decide (i < c)) as [Hic | Hic].
      * by apply (Hcov i); [lia|].
      * by apply (Hlq i); [lia|].
Qed.

Lemma for_p_least n d k :
  least_divisor n d → (2 * Z.to_nat d ≤ k)%nat →
  for_p n (sieve (count 2)) k = Return d.
Proof.
  intros Hd Hk. pose proof Hd as (Hd2 & _).
  apply (for_p_chain n d [] 2 k); [done | lia | constructor | | simpl; lia].
  intros i Hi. lia.
Qed.

(** * Rounding to a double *)

Section Binary64.
Import SpecFloat.

Lemma digits2_pos_size p : digits2_pos p = Pos.size p.
Proof. induction p; simpl; congruence. Qed.

Lemma digits2_pos_log2 p : Z.pos (digits2_pos p) = Z.log2 (Z.pos p) + 1.
Proof.
  rewrite digits2_pos_size. destruct p; simpl; lia.
Qed.

Lemma iter_pos_comm {A} (f : A → A) p x : iter_pos f p (f x) = f (iter_pos f p x).
Proof.
  revert x. induction p as [p IH | p IH |]; intros x; simpl; [| |done].
  - by rewrite !IH.
  - by rewrite !IH.
Qed.

Lemma iter_pos_succ {A} (f : A → A) p x :
  iter_pos f (Pos.succ p) x = f (iter_pos f p x).
Proof.
  revert x. induction p as [p IH | p IH |]; intros x; simpl.
  - rewrite !IH. by rewrite !iter_pos_comm.
  - by rewrite !iter_pos_comm.
  - done.
Qed.

Lemma Pos_iter_xO m k : Z.pos (Pos.iter xO m k) = Z.pos m * 2 ^ Z.pos k.
Proof.
  induction k as [|k IH] using Pos.peano_ind.
  - simpl. lia.
  - rewrite Pos.iter_succ, Pos2Z.inj_succ, Z.pow_succ_r by lia.
    rewrite Pos2Z.inj_xO, IH. lia.
Qed.

Lemma shr_1_spec m r s :
  0 ≤ m →
  shr_1 {| shr_m := m; shr_r := r; shr_s := s |}
  = {| shr_m := m `div` 2; shr_r := Z.odd m; shr_s := r || s |}.
Proof.
  intros Hm. destruct m as [|p|p]; [done | | lia].
  destruct p as [p|p|]; simpl.
  - f_equal. rewrite Pos2Z.inj_xI. apply Z.div_unique with 1; lia.
  - f_equal. rewrite Pos2Z.inj_xO. apply Z.div_unique with 0; lia.
  - done.
Qed.

(** The record after [k] shifts of [m], starting without round or sticky
    bit. *)
Lemma iter_shr_1 m k :
  0 ≤ m →
  iter_pos shr_1 k {| shr_m := m; shr_r := false; shr_s := false |}
  = {| shr_m := m `div` 2 ^ Z.pos k;
       shr_r := Z.testbit m (Z.pos k - 1);
       shr_s := negb (m `mod` 2 ^ (Z.pos k - 1) =? 0) |}.
Proof.
  intros Hm. induction k as [|k IH] using Pos.peano_ind.
  - cbn [iter_pos]. rewrite shr_1_spec by done. f_equal.
    simpl. by rewrite Z.mod_1_r.
  - rewrite iter_pos_succ, IH. rewrite shr_1_spec by (apply Z.div_pos; lia).
    rewrite Pos2Z.inj_succ.
    replace (Z.succ (Z.pos k) - 1) with (Z.pos k) by lia.
    f_equal.
    + rewrite Z.pow_succ_r by lia. rewrite Z.div_div by lia. f_equal. lia.
    + rewrite Z.testbit_odd, Z.shiftr_div_pow2 by lia. done.
    + set (j := Z.pos k - 1). assert (0 ≤ j) by lia.
      replace (Z.pos k) with (j + 1) by lia.
      rewrite Z.pow_add_r by lia. change (2 ^ 1) with 2.
      set (h := 2 ^ j). assert (0 < h) by (apply Z.pow_pos_nonneg; lia).
      rewrite Z.testbit_odd, Z.shiftr_div_pow2 by lia. fold h.
      pose proof (Z.div_mod m h ltac:(lia)).
      pose proof (Z.mod_pos_bound m h ltac:(lia)).
      pose proof (Z.div_mod (m `div` h) 2 ltac:(lia)).
      pose proof (Z.mod_pos_bound (m `div` h) 2 ltac:(lia)).
      assert (Hmod : m `mod` (h * 2)
                     = h * ((m `div` h) `mod` 2) + m `mod` h).
      { symmetry. apply Z.mod_unique with ((m `div` h) `div` 2); nia. }
      rewrite Hmod, Zodd_mod.
      repeat (destruct (Z.eqb_spec _ _)); simpl; nia.
Qed.

Lemma fexp64 e : -1021 ≤ e → fexp 53 1024 e = e - 53.
Proof. unfold fexp, emin. lia. Qed.

Lemma shr_fexp_aligned m e :
  Z.pos (digits2_pos m) = 53 → -1074 ≤ e →
  shr_fexp 53 1024 (Z.pos m) e loc_Exact
  = ({| shr_m := Z.pos m; shr_r := false; shr_s := false |}, e).
Proof.
  intros Hd He. unfold shr_fexp. cbn [Zdigits2]. rewrite Hd.
  rewrite fexp64 by lia. replace (53 + e - 53 - e) with 0 by lia. done.
Qed.

Lemma binary_round_aux_aligned s m e :
  Z.pos (digits2_pos m) = 53 → -1074 ≤ e →
  binary_round_aux 53 1024 s (Z.pos m) e loc_Exact
  = if e <=? 971 then S754_finite s m e else S754_infinity s.
Proof.
  intros Hd He. unfold binary_round_aux.
  rewrite shr_fexp_aligned by done. cbn [shr_m loc_of_shr_record round_nearest_even].
  rewrite shr_fexp_aligned by done. done.
Qed.

Lemma binary_round_exact s m :
  Z.log2 (Z.pos m) ≤ 52 →
  Z_of_spec_float (binary_round 53 1024 s m 0)
  = Return (cond_Zopp s (Z.pos m)).
Proof.
  intros HL. pose proof (Z.log2_nonneg (Z.pos m)) as HL0.
  unfold binary_round. rewrite digits2_pos_log2.
  rewrite fexp64 by lia. unfold shl_align.
  destruct (Z.log2 (Z.pos m) + 1 + 0 - 53 - 0) as [|k|k] eqn:Hk; [|lia|].
  - rewrite binary_round_aux_aligned; [|rewrite digits2_pos_log2; lia|lia].
    simpl. f_equal. f_equal. lia.
  - rewrite binary_round_aux_aligned; [| |lia].
    2:{ rewrite digits2_pos_log2, Pos_iter_xO.
        rewrite Z.log2_mul_pow2 by lia. lia. }
    rewrite (proj2 (Z.leb_le _ _)) by lia. unfold Z_of_spec_float.
    rewrite bool_decide_eq_false_2 by lia. rewrite Pos_iter_xO.
    replace (- (Z.log2 (Z.pos m) + 1 + 0 - 53)) with (Z.pos k) by lia.
    rewrite Z.div_mul; [done|]. apply Z.pow_nonzero; lia.
Qed.

Lemma Z_pos_pow2_53 m1 : Z.pos m1 = 2 ^ 53 → m1 = 9007199254740992%positive.
Proof. intros H. change (2 ^ 53) with (Z.pos 9007199254740992) in H. congruence. Qed.

Lemma binary_round_aux_second s (m1 : positive) e :
  2 ^ 52 ≤ Z.pos m1 ≤ 2 ^ 53 → 1 ≤ e →
  Z_of_spec_float
    (let '(mrs'', e'') := shr_fexp 53 1024 (Z.pos m1) e loc_Exact in
     match shr_m mrs'' with
     | Z0 => S754_zero s
     | Zpos mm =>
       if e'' <=? 1024 - 53 then S754_finite s mm e'' else S754_infinity s
     | _ => S754_nan
     end)
  = if bool_decide (2 ^ 1024 ≤ Z.pos m1 * 2 ^ e) then Raise OverflowError
    else Return (cond_Zopp s (Z.pos m1 * 2 ^ e)).
Proof.
  intros Hm1 He.
  assert (HP : 0 < 2 ^ e) by (apply Z.pow_pos_nonneg; lia).
  destruct (decide (Z.pos m1 = 2 ^ 53)) as [Heq | Hne].
  - apply Z_pos_pow2_53 in Heq as ->.
    unfold shr_fexp. cbn [Zdigits2]. 
    change (Z.pos (digits2_pos 9007199254740992)) with 54.
    rewrite fexp64 by lia. replace (54 + e - 53 - e) with 1 by lia.
    cbn [shr iter_pos shr_record_of_loc shr_1 shr_m].
    change (1024 - 53) with 971.
    change (Z.pos 9007199254740992) with (2 ^ 53).
    destruct (Z.leb_spec (e + 1) 971) as [Hle | Hgt].
    + unfold Z_of_spec_float. rewrite bool_decide_eq_true_2 by lia.
      rewrite bool_decide_eq_false_2.
      * f_equal. f_equal. rewrite Z.pow_add_r by lia.
        change (Z.pos 4503599627370496) with (2 ^ 52). 
        change (2 ^ 53) with (2 ^ 52 * 2 ^ 1). lia.
      * assert (2 ^ e ≤ 2 ^ 970) by (apply Z.pow_le_mono_r; lia). 
        change (2 ^ 1024) with (2 ^ 53 * (2 * 2 ^ 970)). nia.
    + simpl. rewrite bool_decide_eq_true_2; [done|].
      assert (2 ^ 971 ≤ 2 ^ e) by (apply Z.pow_le_mono_r; lia).
      change (2 ^ 1024) with (2 ^ 53 * 2 ^ 971). nia.
  - assert (Hlog : Z.log2 (Z.pos m1) = 52).
    { apply Z.log2_unique; [lia|]. change (2 ^ (52 + 1)) with (2 ^ 53). lia. }
    rewrite shr_fexp_aligned; [|rewrite digits2_pos_log2; lia | lia].
    cbn [shr_m]. change (1024 - 53) with 971.
    destruct (Z.leb_spec e 971) as [Hle | Hgt].
    + unfold Z_of_spec_float. rewrite bool_decide_eq_true_2 by lia.
      rewrite bool_decide_eq_false_2; [done|].
      assert (2 ^ e ≤ 2 ^ 971) by (apply Z.pow_le_mono_r; lia).
      change (2 ^ 1024) with (2 ^ 53 * 2 ^ 971). nia.
    + simpl. rewrite bool_decide_eq_true_2; [done|].
      assert (2 ^ 972 ≤ 2 ^ e) by (apply Z.pow_le_mono_r; lia).
      change (2 ^ 1024) with (2 ^ 52 * 2 ^ 972). nia.
Qed.

(** The round and sticky bits left by [k] shifts select the same mantissa
    as the comparison of the remainder with half a unit. *)
Lemma round_nearest_even_spec (m : Z) (k : positive) :
  0 ≤ m →
  let mrs := iter_pos shr_1 k {| shr_m := m; shr_r := false; shr_s := false |} in
  round_nearest_even (shr_m mrs) (loc_of_shr_record mrs) * 2 ^ Z.pos k
  = round_half_even m (Z.pos k).
Proof.
  intros Hm. cbv zeta. rewrite iter_shr_1 by done. cbn [shr_m].
  unfold round_half_even.
  set (j := Z.pos k - 1). assert (0 ≤ j) by lia.
  replace (Z.pos k) with (j + 1) by lia.
  rewrite Z.pow_add_r by lia. change (2 ^ 1) with 2.
  set (h := 2 ^ j). assert (0 < h) by (apply Z.pow_pos_nonneg; lia).
  rewrite Z.testbit_odd, Z.shiftr_div_pow2 by lia. fold h.
  pose proof (Z.div_mod m h ltac:(lia)).
  pose proof (Z.mod_pos_bound m h ltac:(lia)).
  pose proof (Z.div_mod (m `div` h) 2 ltac:(lia)).
  pose proof (Z.mod_pos_bound (m `div` h) 2 ltac:(lia)).
  assert (Hmod : m `mod` (h * 2) = h * ((m `div` h) `mod` 2) + m `mod` h).
  { symmetry. apply Z.mod_unique with ((m `div` h) `div` 2); nia. }
  rewrite Hmod, Zodd_mod. f_equal.
  destruct (Z.eqb_spec ((m `div` h) `mod` 2) 1) as [Hb | Hb];
    destruct (Z.eqb_spec (m `mod` h) 0) as [Hs | Hs]; simpl;
    repeat case_bool_decide; try nia; done.
Qed.

Lemma binary_round_inexact s m :
  53 ≤ Z.log2 (Z.pos m) →
  Z_of_spec_float (binary_round 53 1024 s m 0)
  = let v := round_half_even (Z.pos m) (Z.log2 (Z.pos m) - 52) in
    if bool_decide (2 ^ 1024 ≤ v) then Raise OverflowError
    else Return (cond_Zopp s v).
Proof.
  intros HL. pose proof (Z.log2_spec (Z.pos m) ltac:(lia)) as [Hlo Hhi].
  unfold binary_round. rewrite digits2_pos_log2.
  rewrite fexp64 by lia. unfold shl_align.
  destruct (Z.log2 (Z.pos m) + 1 + 0 - 53 - 0) as [|k|k] eqn:Hk; [lia | | lia].
  assert (Hk' : Z.log2 (Z.pos m) - 52 = Z.pos k) by lia.
  unfold binary_round_aux. unfold shr_fexp at 1. cbn [Zdigits2].
  rewrite digits2_pos_log2, fexp64 by lia. rewrite Hk.
  cbn [shr shr_record_of_loc]. cbv zeta. rewrite Hk'.
  pose proof (round_nearest_even_spec (Z.pos m) k ltac:(lia)) as Hr.
  cbv zeta in Hr.
  set (m1 := round_nearest_even _ _) in *.
  assert (HP : 0 < 2 ^ Z.pos k) by (apply Z.pow_pos_nonneg; lia).
  assert (Hm1 : 2 ^ 52 ≤ m1 ≤ 2 ^ 53).
  { replace (Z.log2 (Z.pos m)) with (52 + Z.pos k) in Hlo, Hhi by lia.
    replace (Z.succ (52 + Z.pos k)) with (53 + Z.pos k) in Hhi by lia.
    rewrite Z.pow_add_r in Hlo, Hhi by lia.
    unfold round_half_even in Hr.
    pose proof (Z.div_mod (Z.pos m) (2 ^ Z.pos k) ltac:(lia)).
    pose proof (Z.mod_pos_bound (Z.pos m) (2 ^ Z.pos k) ltac:(lia)).
    set (q := Z.pos m `div` 2 ^ Z.pos k) in *.
    assert (2 ^ 52 ≤ q < 2 ^ 53) by nia.
    cbv zeta in Hr.
    repeat case_bool_decide; try destruct (Z.even q); nia. }
  destruct m1 as [|m1|m1]; [lia | | lia].
  rewrite binary_round_aux_second by lia.
  replace (0 + Z.pos k) with (Z.pos k) by lia. by rewrite Hr.
Qed.

(** [float_of_Z] is the conversion of an integer to binary64, as the
    Standard Library specifies IEEE arithmetic: the rounding of [n /= p] is
    the one of the format. *)
Theorem float_of_Z_binary64 z : float_of_Z z = binary64_of_Z z.
Proof.
  unfold binary64_of_Z, binary_normalize, float_of_Z. cbv zeta.
  destruct z as [|m|m]; [done | |].
  - change (Z.abs (Z.pos m)) with (Z.pos m).
    change (Z.sgn (Z.pos m)) with 1.
    case_bool_decide as He.
    + rewrite binary_round_exact by lia. done.
    + rewrite binary_round_inexact by lia. cbv zeta.
      case_bool_decide; [done|]. simpl. f_equal; lia.
  - change (Z.abs (Z.neg m)) with (Z.pos m).
    change (Z.sgn (Z.neg m)) with (-1).
    case_bool_decide as He.
    + rewrite binary_round_exact by lia. done.
    + rewrite binary_round_inexact by lia. cbv zeta.
      case_bool_decide; [done|]. simpl. f_equal; lia.
Qed.

End Binary64.

(** ** Bounds on the rounded value *)

Lemma float_of_Z_exact z : - 2 ^ 53 < z < 2 ^ 53 → float_of_Z z = Return z.
Proof.
  intros Hz. unfold float_of_Z.
  rewrite bool_decide_eq_true_2; [done|].
  destruct (decide (Z.abs z = 0)) as [-> | Hnz]; [done|].
  assert (Z.log2 (Z.abs z) < 53); [|lia].
  apply Z.log2_lt_pow2; lia.
Qed.

(** Rounding a magnitude of more than 53 bits: the result stays between the
    neighbouring multiples of the unit in the last place, and below the next
    power of two. *)
Lemma round_half_even_bounds a :
  2 ^ 53 ≤ a →
  let v := round_half_even a (Z.log2 a - 52) in
  2 ^ 52 ≤ v < 2 * a ∧ v ≤ 2 ^ (Z.log2 a + 1).
Proof.
  intros Ha. pose proof (Z.log2_spec a ltac:(lia)) as [Hlo Hhi].
  assert (53 ≤ Z.log2 a) by (apply Z.log2_le_pow2; lia).
  set (e := Z.log2 a - 52) in *.
  assert (He : Z.log2 a = 52 + e) by lia.
  rewrite He in *. replace (Z.succ (52 + e)) with (53 + e) in Hhi by lia.
  replace (52 + e + 1) with (53 + e) by lia.
  rewrite Z.pow_add_r in Hlo, Hhi |- * by lia.
  unfold round_half_even.
  set (P := 2 ^ e) in *.
  assert (HP : 2 ≤ P).
  { unfold P. change 2 with (2 ^ 1) at 1. apply Z.pow_le_mono_r; lia. }
  pose proof (Z.div_mod a P ltac:(lia)) as Hdm.
  pose proof (Z.mod_pos_bound a P ltac:(lia)) as Hr.
  set (m := a `div` P) in *. set (r := a `mod` P) in *.
  assert (2 ^ 52 ≤ m < 2 ^ 53) by nia.
  assert (Hm' : ∀ m', m ≤ m' ≤ m + 1 →
    2 ^ 52 ≤ m' * P < 2 * a ∧ m' * P ≤ 2 ^ 53 * P) by (intros; nia).
  simpl. repeat case_bool_decide; try destruct (Z.even m); apply Hm'; lia.
Qed.

Lemma float_of_Z_pos z :
  1 ≤ z →
  match float_of_Z z with
  | Return z' => 1 ≤ z' < 2 * z ∧ z' ≤ 2 ^ (Z.log2 z + 1)
  | Raise e => e = OverflowError ∧ 2 ^ 1023 ≤ z
  | OutOfFuel => False
  end.
Proof.
  intros Hz. unfold float_of_Z. rewrite (Z.abs_eq z) by lia.
  pose proof (Z.log2_spec z ltac:(lia)) as [Hlo Hhi].
  case_bool_decide as He.
  { split; [lia|]. replace (Z.log2 z + 1) with (Z.succ (Z.log2 z)); lia. }
  assert (2 ^ 53 ≤ z).
  { etrans; [|exact Hlo]. apply Z.pow_le_mono_r; lia. }
  pose proof (round_half_even_bounds z ltac:(done)) as [Hv Hv'].
  simpl in Hv, Hv'. case_bool_decide as Hov.
  - split; [done|]. etrans; [|exact Hlo]. apply Z.pow_le_mono_r; [lia|].
    destruct (decide (1023 ≤ Z.log2 z)) as [|Hlt]; [done|].
    assert (2 ^ (Z.log2 z + 1) < 2 ^ 1024) by (apply Z.pow_lt_mono_r; lia).
    lia.
  - rewrite Z.sgn_pos by lia. lia.
Qed.

Lemma float_of_Z_nonpos z z' : z ≤ 0 → float_of_Z z = Return z' → z' ≤ 0.
Proof.
  unfold float_of_Z. intros Hz Hf. case_bool_decide; [naive_solver|].
  case_bool_decide; [done|]. injection Hf as <-.
  assert (0 ≤ round_half_even (Z.abs z) (Z.log2 (Z.abs z) - 52)).
  { unfold round_half_even.
    assert (0 < 2 ^ (Z.log2 (Z.abs z) - 52)) by (apply Z.pow_pos_nonneg; lia).
    assert (0 ≤ Z.abs z `div` 2 ^ (Z.log2 (Z.abs z) - 52))
      by (apply Z.div_pos; lia).
    simpl. repeat case_bool_decide; try destruct (Z.even _); nia. }
  destruct (decide (z = 0)) as [-> | Hne]; [done|].
  rewrite Z.sgn_neg by lia. lia.
Qed.

Lemma float_of_Z_exn z e : float_of_Z z = Raise e → e = OverflowError.
Proof. unfold float_of_Z. repeat case_bool_decide; naive_solver. Qed.

(** * Generators reached from [count 2] *)

Lemma next_ok g k :
  gen_ok g →
  match next g k with
  | Return (i, g') => counter g ≤ i ∧ i < counter g' ∧ gen_ok g'
  | Raise _ => False
  | OutOfFuel => True
  end.
Proof.
  revert g. induction k as [|k IH]; intros g [Hc Hf]; [done|].
  destruct g as [c | n s | s]; simpl in *.
  - split; [lia|]. split; [lia|]. split; [simpl; lia | constructor].
  - apply Forall_cons in Hf as [Hn Hf].
    pose proof (IH s (conj Hc Hf)) as IHs.
    destruct (next s k) as [[i s'] | |]; simpl; [|done..].
    destruct IHs as (Hi & Hi' & Hc' & Hf').
    unfold py_mod. rewrite bool_decide_eq_false_2 by lia. simpl.
    case_bool_decide.
    + split; [done|]. split; [done|]. split; [simpl; lia | by constructor].
    + assert (Hok : gen_ok (genexpr n s'))
        by (split; [simpl; lia | by constructor]).
      pose proof (IH _ Hok) as IH'. simpl in IH'.
      destruct (next (genexpr n s') k) as [[j g'] | |]; [|done..].
      destruct IH' as (? & ? & ?). split; [lia | done].
  - pose proof (IH s (conj Hc Hf)) as IHs.
    destruct (next s k) as [[i s'] | |]; simpl; [|done..].
    destruct IHs as (Hi & Hi' & Hc' & Hf').
    split; [done|]. split; [done|].
    split; simpl; [lia | constructor; [lia | done]].
Qed.

Lemma for_p_ok n g k :
  gen_ok g →
  match for_p n g k with
  | Return p => 2 ≤ p ∧ (p | n)
  | Raise _ => False
  | OutOfFuel => True
  end.
Proof.
  revert g. induction k as [|k IH]; intros g Hg; [done|]. simpl.
  pose proof (next_ok g k Hg) as Hnext.
  destruct (next g k) as [[p g'] | |]; simpl; [|done..].
  destruct Hnext as (Hp & _ & Hg'). pose proof Hg as [Hc _].
  unfold py_mod. rewrite bool_decide_eq_false_2 by lia. simpl.
  case_bool_decide as Hmod; [|by apply IH].
  split; [lia|]. apply Z.mod_divide; [lia | done].
Qed.

Lemma sieve_count_ok : gen_ok (sieve (count 2)).
Proof. split; [done | constructor]. Qed.

(** * Runs of the loop *)

Lemma loop_run_settled n factors r : loop_run n factors r → r ≠ OutOfFuel.
Proof. induction 1; done. Qed.

Lemma loop_run_evaluates n factors r :
  loop_run n factors r → while_loop n factors ⇓ r.
Proof.
  intros Hrun. split; [by eapply loop_run_settled|].
  induction Hrun as [factors | n factors d e Hn Hd Hf
                    | n factors d n' r Hn Hd Hf Hrun [k0 IH]].
  - exists 1%nat. intros [|k] Hk; [lia | done].
  - exists (S (2 * Z.to_nat d)). intros [|k] Hk; [lia|]. simpl.
    rewrite bool_decide_eq_true_2 by done.
    rewrite (for_p_least n d k) by (done || lia). simpl.
    destruct Hd as (Hd & _). unfold truediv.
    rewrite bool_decide_eq_false_2 by lia. by rewrite Hf.
  - exists (S (2 * Z.to_nat d `max` k0)). intros [|k] Hk; [lia|]. simpl.
    rewrite bool_decide_eq_true_2 by done.
    rewrite (for_p_least n d k) by (done || lia). simpl.
    destruct Hd as (Hd & _). unfold truediv.
    rewrite bool_decide_eq_false_2 by lia. rewrite Hf. simpl.
    apply IH. lia.
Qed.

(** From any [n ≥ 1] the loop has a run: the quotients decrease. *)
Lemma loop_run_total n factors : 1 ≤ n → ∃ r, loop_run n factors r.
Proof.
  intros Hn. revert factors.
  induction (Z.lt_wf 1 n) as [n _ IH]; intros factors.
  destruct (decide (n = 1)) as [-> | Hn1]; [eexists; constructor|].
  destruct (least_divisor_exists n) as (d & Hd & Hdn); [lia|].
  pose proof Hd as (Hd2 & [q Hq] & _).
  assert (Hdiv : n `div` d = q) by (subst n; apply Z.div_mul; lia).
  assert (1 ≤ q) by nia.
  pose proof (float_of_Z_pos q ltac:(done)) as Hf.
  destruct (float_of_Z q) as [n' | e |] eqn:Hfq; [| |done].
  - destruct Hf as [Hn' _].
    destruct (IH n' ltac:(nia) ltac:(lia) (factors ++ [d])) as [r Hr].
    exists r. eapply run_step; [done.. | by rewrite Hdiv | done].
  - exists (Raise e). eapply run_raise; [done.. | by rewrite Hdiv].
Qed.

Lemma loop_run_exn n factors e :
  loop_run n factors (Raise e) → e = OverflowError.
Proof.
  remember (Raise e) as r eqn:Hr. induction 1; [done | | by auto].
  injection Hr as ->. by eapply float_of_Z_exn.
Qed.

(** * Evaluation of composed computations *)

Lemma evaluates_bind {A B} (c : nat → result A) (f : A → nat → result B) r r' :
  c ⇓ r →
  (∀ a, r = Return a → f a ⇓ r') →
  (∀ e, r = Raise e → r' = Raise e) →
  (λ k, c k ≫= λ a, f a k) ⇓ r'.
Proof.
  intros [Hr [k0 Hc]] Hret Hraise. destruct r as [a | e |]; [| |done].
  - destruct (Hret a eq_refl) as [Hr' [k1 Hf]]. split; [done|].
    exists (k0 `max` k1)%nat. intros k Hk.
    rewrite Hc by lia. simpl. apply Hf. lia.
  - rewrite (Hraise e eq_refl). split; [done|].
    exists k0. intros k Hk. by rewrite Hc.
Qed.

Lemma evaluates_pure {A} (r : result A) : r ≠ OutOfFuel → (λ _, r) ⇓ r.
Proof. intros Hr. split; [done|]. by exists 0%nat. Qed.

Lemma evaluates_ext {A} (c c' : nat → result A) r :
  (∀ k, c k = c' k) → c ⇓ r → c' ⇓ r.
Proof.
  intros Hcc' [Hr [k0 Hc]]. split; [done|]. exists k0. intros k Hk.
  rewrite <- Hcc'. by apply Hc.
Qed.

Lemma evaluates_S {A} (c : nat → result A) r : (λ k, c (S k)) ⇓ r ↔ c ⇓ r.
Proof.
  split; intros [Hr [k0 Hc]]; (split; [done|]).
  - exists (S k0). intros [|k] Hk; [lia|]. apply Hc. lia.
  - exists k0. intros k Hk. apply Hc. lia.
Qed.

(** * Outcomes of prime_factors, mu and M *)

Lemma prime_factors_run n r : loop_run n [] r → prime_factors n ⇓ r.
Proof.
  intros Hrun. unfold prime_factors.
  destruct (decide (n = 1)) as [-> | Hn].
  - inversion Hrun; subst; [|done..]. by apply evaluates_pure.
  - apply loop_run_evaluates in Hrun.
    eapply evaluates_ext; [|exact Hrun].
    intros k. by rewrite bool_decide_eq_false_2.
Qed.

Lemma mu_evaluates n r :
  prime_factors n ⇓ r → mu n ⇓ (factors ← r; Return (mu_of_factors factors)).
Proof.
  intros Hr. unfold mu.
  apply (evaluates_bind (prime_factors n)
           (λ factors _, Return (mu_of_factors factors)) r); [done | |].
  - intros fs ->. by apply evaluates_pure.
  - by intros e ->.
Qed.

Lemma M_evaluates_1 r : mu 1 ⇓ r → M 1 ⇓ r.
Proof. intros Hr. apply evaluates_S. by eapply evaluates_ext; [|exact Hr]. Qed.

(** The outcome of [M n] for [n ≠ 1], in the order of the source:
    [mu(n) + M(n-1)]. *)
Lemma M_evaluates_step n rmu rM :
  n ≠ 1 → mu n ⇓ rmu → M (n - 1) ⇓ rM →
  M n ⇓ (a ← rmu; b ← rM; Return (a + b)).
Proof.
  intros Hn Hmu HM. apply evaluates_S. simpl.
  eapply evaluates_ext.
  { intros k. by rewrite bool_decide_eq_false_2. }
  apply (evaluates_bind (mu n) (λ a k, b ← M (n - 1) k; Return (a + b)) rmu);
    [done | | by intros e ->].
  intros a ->. simpl.
  apply (evaluates_bind (M (n - 1)) (λ b _, Return (a + b)) rM); [done | |].
  - intros b ->. by apply evaluates_pure.
  - by intros e ->.
Qed.

Lemma prime_factors_terminates n :
  1 ≤ n → ∃ r, prime_factors n ⇓ r ∧ settled_overflow r.
Proof.
  intros Hn. destruct (loop_run_total n [] Hn) as [r Hr].
  exists r. split; [by apply prime_factors_run|].
  destruct r as [fs | e |]; simpl; [done | by eapply loop_run_exn |].
  by apply loop_run_settled in Hr.
Qed.

Lemma mu_terminates n : 1 ≤ n → ∃ r, mu n ⇓ r ∧ settled_overflow r.
Proof.
  intros Hn. destruct (prime_factors_terminates n Hn) as (r & Hr & Hs).
  eexists. split; [by apply mu_evaluates|]. by destruct r.
Qed.

Lemma M_terminates n : 1 ≤ n → ∃ r, M n ⇓ r ∧ settled_overflow r.
Proof.
  intros Hn. induction (Z.lt_wf 1 n) as [n _ IH].
  destruct (mu_terminates n Hn) as (rmu & Hmu & Hsmu).
  destruct (decide (n = 1)) as [-> | Hn1].
  { exists rmu. split; [by apply M_evaluates_1 | done]. }
  destruct (IH (n - 1)) as (rM & HM & HsM); [lia.. |].
  eexists. split; [by apply M_evaluates_step|].
  by destruct rmu, rM.
Qed.

(** * Products of primes *)

Lemma product_app l1 l2 : product (l1 ++ l2) = product l1 * product l2.
Proof.
  induction l1 as [|x l1 IH]; simpl; [by destruct (product l2)|].
  rewrite IH. lia.
Qed.

Lemma product_Permutation l1 l2 : l1 ≡ₚ l2 → product l1 = product l2.
Proof. induction 1; simpl; lia. Qed.

Lemma product_primes_pos l : Forall Z.prime l → 1 ≤ product l.
Proof.
  induction 1 as [|p l Hp _ IH]; simpl; [done|].
  apply Z.prime_ge_2 in Hp. nia.
Qed.

Lemma elem_of_divide_product p l : p ∈ l → (p | product l).
Proof.
  induction 1 as [p l | p x l _ IH]; simpl.
  - apply Z.divide_factor_l.
  - by apply Z.divide_mul_r.
Qed.

(** Euclid's lemma along a list of primes. *)
Lemma prime_divide_product p l :
  Z.prime p → Forall Z.prime l → (p | product l) → p ∈ l.
Proof.
  intros Hp. induction 1 as [|q l Hq _ IH]; simpl; intros Hdiv.
  - apply Z.divide_1_r in Hdiv. apply Z.prime_ge_2 in Hp. lia.
  - apply Z.divide_prime_mul in Hdiv as [Hpq | Hpl]; [| |done].
    + apply Z.divide_prime_prime in Hpq as ->; [left | done..].
    + right. by apply IH.
Qed.

(** A duplicate-free list of primes is the list of prime factors of its
    product, which is squarefree. *)
Lemma product_distinct_primes ps :
  NoDup ps → Forall Z.prime ps →
  squarefree (product ps) ∧ distinct_prime_factors (product ps) ps.
Proof.
  intros Hnd Hps. split.
  - intros p Hp Hpp.
    assert (Hin : p ∈ ps).
    { apply prime_divide_product; [done.. |].
      etrans; [apply Z.divide_factor_l | exact Hpp]. }
    apply elem_of_Permutation in Hin as [ps' Hperm].
    rewrite Hperm in Hnd, Hps. rewrite (product_Permutation _ _ Hperm) in Hpp.
    apply NoDup_cons in Hnd as [Hnin _]. apply Forall_cons in Hps as [_ Hps'].
    simpl in Hpp. apply Z.prime_ge_2 in Hp as Hp2.
    apply Z.mul_divide_cancel_l in Hpp; [|lia].
    apply Hnin. by apply prime_divide_product.
  - split; [done|]. intros p. split.
    + intros Hin. split; [by eapply (proj1 (Forall_forall _ _)) |].
      by apply elem_of_divide_product.
    + intros [Hp Hdiv]. by apply prime_divide_product.
Qed.

(** * Below the rounding threshold *)

(** While the first quotient fits in 53 bits ([n < 2^54]) no division
    rounds, and the loop computes the ordered prime factorisation. *)
Lemma loop_run_exact n lb :
  1 ≤ n < 2 ^ 54 →
  (∀ i, 2 ≤ i → (i | n) → lb ≤ i) →
  ∃ l, (∀ factors, loop_run n factors (Return (factors ++ l))) ∧
       Forall Z.prime l ∧ Sorted Z.le l ∧ Forall (Z.le lb) l ∧
       product l = n.
Proof.
  intros [Hn Hn54]. revert lb Hn54.
  induction (Z.lt_wf 1 n) as [n _ IH]; intros lb Hn54 Hlb.
  destruct (decide (n = 1)) as [-> | Hn1].
  { exists []. split_and!; [|done..]. intros factors.
    rewrite app_nil_r. constructor. }
  destruct (least_divisor_exists n) as (d & Hd & Hdn); [lia|].
  pose proof Hd as (Hd2 & [q Hq] & Hleast).
  assert (Hdiv : n `div` d = q) by (subst n; apply Z.div_mul; lia).
  assert (1 ≤ q) by nia.
  assert (q < 2 ^ 53) by nia.
  destruct (IH q ltac:(nia) ltac:(lia) d ltac:(lia))
    as (l & Hrun & Hprime & Hsorted & Hge & Hprod).
  { intros i Hi Hiq. destruct (decide (d ≤ i)) as [|Hlt]; [done|].
    destruct (Hleast i); [lia|]. subst n. by apply Z.divide_mul_l. }
  exists (d :: l). split_and!.
  - intros factors. eapply run_step; [done | done | |].
    + rewrite Hdiv. apply float_of_Z_exact. lia.
    + rewrite (cons_middle d factors l), app_assoc. apply Hrun.
  - constructor; [by eapply least_divisor_prime | done].
  - constructor; [done|]. destruct Hge; by constructor.
  - assert (lb ≤ d) by (apply Hlb; [lia | by destruct Hd as (_ & ? & _)]).
    constructor; [done|]. eapply Forall_impl; [exact Hge|]. simpl. lia.
  - simpl. rewrite Hprod. lia.
Qed.

(** For [1 ≤ n < 2^54], [prime_factors n] returns the prime factors of
    [n] with multiplicity, in non-decreasing order. *)
Theorem prime_factors_exact n :
  1 ≤ n < 2 ^ 54 →
  ∃ factors, prime_factors n ⇓ Return factors ∧
    Forall Z.prime factors ∧ Sorted Z.le factors ∧ product factors = n.
Proof.
  intros Hn.
  destruct (loop_run_exact n 2 Hn) as (l & Hrun & Hp & Hs & _ & Hprod);
    [by intros |].
  exists l. split_and!; [|done..]. apply prime_factors_run. apply (Hrun []).
Qed.

(** Two lists of primes with the same product are permutations of each
    other. *)
Lemma prime_factorisation_unique l1 l2 :
  Forall Z.prime l1 → Forall Z.prime l2 → product l1 = product l2 →
  l1 ≡ₚ l2.
Proof.
  intros Hl1. revert l2.
  induction Hl1 as [|p l1 Hp Hl1 IH]; intros l2 Hl2 Hprod; simpl in *.
  - destruct Hl2 as [|q l2 Hq Hl2]; [done|]. simpl in Hprod.
    apply Z.prime_ge_2 in Hq. apply product_primes_pos in Hl2. nia.
  - assert (Hin : p ∈ l2).
    { apply prime_divide_product; [done.. |].
      rewrite <- Hprod. apply Z.divide_factor_l. }
    apply elem_of_Permutation in Hin as [l2' Hperm].
    rewrite Hperm in Hl2 |- *. apply Forall_cons in Hl2 as [_ Hl2'].
    rewrite (product_Permutation _ _ Hperm) in Hprod. simpl in Hprod.
    apply Z.prime_ge_2 in Hp.
    f_equiv. apply IH; [done|]. nia.
Qed.

(** ** The decision of mu *)

Lemma size_list_to_set_NoDup (l : list Z) :
  (size (list_to_set l : gset Z) ≤ length l)%nat ∧
  (size (list_to_set l : gset Z) = length l ↔ NoDup l).
Proof.
  induction l as [|x l [IHle IHeq]]; simpl.
  - split; [done|]. split; [constructor | done].
  - destruct (decide (x ∈ l)) as [Hin | Hnin].
    + assert ({[x]} ∪ list_to_set l = (list_to_set l : gset Z)) as ->.
      { apply subseteq_union_1_L, singleton_subseteq_l.
        by apply elem_of_list_to_set. }
      split; [lia|]. rewrite NoDup_cons. split; [lia | tauto].
    + rewrite size_union.
      2:{ apply disjoint_singleton_l. by rewrite elem_of_list_to_set. }
      rewrite size_singleton.
      split; [lia|]. rewrite NoDup_cons. split.
      * intros Hsz. split; [done|]. apply IHeq. lia.
      * intros [_ Hnd]. apply IHeq in Hnd. lia.
Qed.

Lemma parity_pow (len : nat) :
  (if bool_decide ((len `mod` 2)%nat = 0%nat) then 1 else -1)
  = (-1) ^ Z.of_nat len.
Proof.
  destruct (Nat.Even_or_Odd len) as [[k ->] | [k ->]].
  - rewrite bool_decide_eq_true_2
      by (rewrite Nat.mul_comm; apply Nat.Div0.mod_mul).
    rewrite Nat2Z.inj_mul, Z.pow_mul_r by lia. simpl.
    by rewrite Z.pow_1_l by lia.
  - rewrite bool_decide_eq_false_2.
    2:{ rewrite Nat.add_comm, Nat.mul_comm, Nat.Div0.mod_add. done. }
    rewrite Nat2Z.inj_add, Nat2Z.inj_mul, Z.pow_add_r, Z.pow_mul_r by lia.
    simpl. by rewrite Z.pow_1_l by lia.
Qed.

Lemma mu_of_factors_dup factors : ¬ NoDup factors → mu_of_factors factors = 0.
Proof.
  intros Hdup. unfold mu_of_factors. rewrite bool_decide_eq_true_2; [done|].
  intros Heq. apply Hdup. by apply size_list_to_set_NoDup.
Qed.

Lemma mu_of_factors_NoDup factors :
  NoDup factors → mu_of_factors factors = (-1) ^ Z.of_nat (length factors).
Proof.
  intros Hnd. unfold mu_of_factors. rewrite bool_decide_eq_false_2.
  - apply parity_pow.
  - intros Hne. apply Hne. symmetry. by apply size_list_to_set_NoDup.
Qed.

Lemma mu_of_factors_range factors :
  mu_of_factors factors = -1 ∨ mu_of_factors factors = 0 ∨
  mu_of_factors factors = 1.
Proof. unfold mu_of_factors. repeat case_bool_decide; auto. Qed.

Lemma duplicate_square l :
  ¬ NoDup l → ∃ x, x ∈ l ∧ (x * x | product l).
Proof.
  induction l as [|x l IH]; intros Hdup; [by destruct Hdup; constructor|].
  simpl. destruct (decide (x ∈ l)) as [Hin | Hnin].
  - exists x. split; [left|].
    apply Z.mul_divide_mono_l. by apply elem_of_divide_product.
  - destruct IH as (y & Hy & Hyy).
    { intros Hnd. apply Hdup. by constructor. }
    exists y. split; [by right|]. by apply Z.divide_mul_r.
Qed.

(** A list of primes has a repeated element exactly when its product has a
    square prime factor. *)
Lemma primes_NoDup_squarefree l :
  Forall Z.prime l → NoDup l ↔ squarefree (product l).
Proof.
  intros Hl. split.
  - intros Hnd. by apply product_distinct_primes.
  - intros Hsq. destruct (decide (NoDup l)) as [|Hdup]; [done|].
    destruct (duplicate_square l Hdup) as (x & Hx & Hxx).
    destruct (Hsq x); [|done]. by eapply (proj1 (Forall_forall _ _)).
Qed.

(** X9: for [1 ≤ n < 2^54], [mu n] is 0 when [n] has a square prime factor
    and [(-1)^k] when [n] is squarefree with [k] distinct prime factors. *)
Theorem mu_exact n :
  1 ≤ n < 2 ^ 54 →
  ((∃ p, Z.prime p ∧ (p * p | n)) → mu n ⇓ Return 0) ∧
  (∀ ps, squarefree n → distinct_prime_factors n ps →
         mu n ⇓ Return ((-1) ^ Z.of_nat (length ps))).
Proof.
  intros Hn.
  destruct (prime_factors_exact n Hn) as (l & Hrun & Hl & _ & Hprod).
  apply mu_evaluates in Hrun. simpl in Hrun. split.
  - intros (p & Hp & Hpp). rewrite mu_of_factors_dup in Hrun; [done|].
    intros Hnd. apply (primes_NoDup_squarefree l Hl) in Hnd.
    apply (Hnd p Hp). by rewrite Hprod.
  - intros ps Hsq [Hps Hiff].
    assert (Hnd : NoDup l).
    { apply primes_NoDup_squarefree; [done|]. by rewrite Hprod. }
    rewrite mu_of_factors_NoDup in Hrun by done.
    assert (Hperm : l ≡ₚ ps).
    { apply NoDup_Permutation; [done.. |]. intros x. rewrite Hiff.
      destruct (product_distinct_primes l Hnd Hl) as [_ [_ Hl']].
      by rewrite Hl', Hprod. }
    by rewrite <- Hperm.
Qed.

Lemma mu_exact_witness :
  1 ≤ 30 < 2 ^ 54 ∧
  ((∃ p, Z.prime p ∧ (p * p | 30)) → mu 30 ⇓ Return 0) ∧
  (∀ ps, squarefree 30 → distinct_prime_factors 30 ps →
         mu 30 ⇓ Return ((-1) ^ Z.of_nat (length ps))).
Proof. split; [lia|]. apply (mu_exact 30). lia. Defined.

Lemma mu_of_factors_Permutation l1 l2 :
  l1 ≡ₚ l2 → mu_of_factors l1 = mu_of_factors l2.
Proof.
  intros Hperm. destruct (decide (NoDup l1)) as [Hnd | Hdup].
  - rewrite !mu_of_factors_NoDup; [by rewrite Hperm | by rewrite <- Hperm
                                  | done].
  - rewrite !mu_of_factors_dup; [done | by rewrite <- Hperm | done].
Qed.

Lemma mu_of_factors_app l1 l2 :
  (∀ x, x ∈ l1 → x ∉ l2) →
  mu_of_factors (l1 ++ l2) = mu_of_factors l1 * mu_of_factors l2.
Proof.
  intros Hdisj.
  destruct (decide (NoDup l1)) as [Hnd1 | Hdup1];
    [destruct (decide (NoDup l2)) as [Hnd2 | Hdup2]|].
  - rewrite !mu_of_factors_NoDup; [|done..|by apply NoDup_app].
    rewrite length_app, Nat2Z.inj_add. apply Z.pow_add_r; lia.
  - rewrite (mu_of_factors_dup l2), (mu_of_factors_dup (l1 ++ l2));
      [lia | | done].
    rewrite NoDup_app. tauto.
  - rewrite (mu_of_factors_dup l1), (mu_of_factors_dup (l1 ++ l2));
      [lia | | done].
    rewrite NoDup_app. tauto.
Qed.

(** X11: for coprime [a, b ≥ 1] with [a * b < 2^54], [mu] is multiplicative. *)
Theorem mu_multiplicative_exact a b :
  1 ≤ a → 1 ≤ b → a * b < 2 ^ 54 → Z.gcd a b = 1 →
  ∃ va vb, mu a ⇓ Return va ∧ mu b ⇓ Return vb ∧
           mu (a * b) ⇓ Return (va * vb).
Proof.
  intros Ha Hb Hab Hgcd.
  destruct (prime_factors_exact a) as (la & Hruna & Hla & _ & Hproda); [nia|].
  destruct (prime_factors_exact b) as (lb & Hrunb & Hlb & _ & Hprodb); [nia|].
  destruct (prime_factors_exact (a * b))
    as (lab & Hrunab & Hlab & _ & Hprodab); [nia|].
  apply mu_evaluates in Hruna, Hrunb, Hrunab. simpl in *.
  exists (mu_of_factors la), (mu_of_factors lb). split_and!; [done.. |].
  assert (Hperm : lab ≡ₚ la ++ lb).
  { apply prime_factorisation_unique; [done | by apply Forall_app |].
    by rewrite product_app, Hproda, Hprodb. }
  rewrite (mu_of_factors_Permutation _ _ Hperm) in Hrunab.
  rewrite mu_of_factors_app in Hrunab; [done|].
  intros x Hxa Hxb.
  assert (Hx : Z.prime x) by (by apply (proj1 (Forall_forall _ _) Hla)).
  apply elem_of_divide_product in Hxa, Hxb. rewrite Hproda in Hxa.
  rewrite Hprodb in Hxb.
  pose proof (Z.gcd_greatest a b x Hxa Hxb) as Hdiv. rewrite Hgcd in Hdiv.
  apply Z.divide_1_r in Hdiv. apply Z.prime_ge_2 in Hx. lia.
Qed.

Lemma mu_multiplicative_exact_witness :
  1 ≤ 6 ∧ 1 ≤ 35 ∧ 6 * 35 < 2 ^ 54 ∧ Z.gcd 6 35 = 1 ∧
  ∃ va vb, mu 6 ⇓ Return va ∧ mu 35 ⇓ Return vb ∧
           mu (6 * 35) ⇓ Return (va * vb).
Proof.
  split; [lia|]. split; [lia|]. split; [lia|]. split; [reflexivity|].
  apply (mu_multiplicative_exact 6 35); [lia | lia | lia | reflexivity].
Defined.

(** ** Below the overflow threshold *)

Lemma loop_run_value n factors :
  1 ≤ n < 2 ^ 1024 → ∃ l, loop_run n factors (Return l).
Proof.
  intros [Hn Hhi]. revert factors Hhi.
  induction (Z.lt_wf 1 n) as [n _ IH]; intros factors Hhi.
  destruct (decide (n = 1)) as [-> | Hn1]; [eexists; constructor|].
  destruct (least_divisor_exists n) as (d & Hd & Hdn); [lia|].
  pose proof Hd as (Hd2 & [q Hq] & _).
  assert (Hdiv : n `div` d = q) by (subst n; apply Z.div_mul; lia).
  assert (1 ≤ q) by nia.
  assert (Hq' : q < 2 ^ 1023) by nia.
  pose proof (float_of_Z_pos q ltac:(done)) as Hf.
  destruct (float_of_Z q) as [n' | e |] eqn:Hfq; [| lia | done].
  destruct Hf as [Hn' Hpow].
  assert (Z.log2 q < 1023) by (apply Z.log2_lt_pow2; lia).
  assert (2 ^ (Z.log2 q + 1) ≤ 2 ^ 1023) by (apply Z.pow_le_mono_r; lia).
  destruct (IH n' ltac:(nia) ltac:(lia) (factors ++ [d])) as [l Hl]; [lia|].
  exists l. eapply run_step; [done.. | by rewrite Hdiv | done].
Qed.

(** For [1 ≤ n < 2^1024], [mu n] returns the decision on the computed
    factors, one of -1, 0, 1. *)
Theorem mu_value n :
  1 ≤ n < 2 ^ 1024 →
  ∃ factors, prime_factors n ⇓ Return factors ∧
             mu n ⇓ Return (mu_of_factors factors) ∧
             (mu_of_factors factors = -1 ∨ mu_of_factors factors = 0 ∨
              mu_of_factors factors = 1).
Proof.
  intros Hn. destruct (loop_run_value n [] Hn) as [l Hl].
  apply prime_factors_run in Hl. exists l.
  split_and!; [done | by apply mu_evaluates in Hl
              | apply mu_of_factors_range].
Qed.

(** For [1 ≤ n < 2^1024], [M n] returns a value. *)
Theorem M_value n : 1 ≤ n < 2 ^ 1024 → ∃ v, M n ⇓ Return v.
Proof.
  intros [Hn Hhi]. revert Hhi.
  induction (Z.lt_wf 1 n) as [n _ IH]; intros Hhi.
  destruct (mu_value n) as (l & _ & Hmu & _); [lia|].
  destruct (decide (n = 1)) as [-> | Hn1].
  { eexists. by apply M_evaluates_1. }
  destruct (IH (n - 1)) as [v Hv]; [lia.. |].
  exists (mu_of_factors l + v).
  by apply (M_evaluates_step n (Return (mu_of_factors l)) (Return v)).
Qed.

(** * Scenarios *)

(** Settle a closed call by running it on [k] units of fuel. *)
Ltac run_with k :=
  apply (monotone_evaluates _ k);
  [ first [ apply prime_factors_monotone | apply mu_monotone
          | apply M_monotone ]
  | vm_compute; reflexivity
  | discriminate ].

(** C9: the scenario values of the specification: [mu] at 1, 2, 4, 6 and
    30, [M] at 1, 2, 3, 4 and 10, and [prime_factors] at 1, 12 and 17. *)
Theorem scenario_values :
  mu 1 ⇓ Return 1 ∧ mu 2 ⇓ Return (-1) ∧ mu 4 ⇓ Return 0 ∧
  mu 6 ⇓ Return 1 ∧ mu 30 ⇓ Return (-1) ∧
  M 1 ⇓ Return 1 ∧ M 2 ⇓ Return 0 ∧ M 3 ⇓ Return (-1) ∧
  M 4 ⇓ Return (-1) ∧ M 10 ⇓ Return (-1) ∧
  prime_factors 1 ⇓ Return [] ∧ prime_factors 12 ⇓ Return [2; 2; 3] ∧
  prime_factors 17 ⇓ Return [17].
Proof. split_and!; run_with 40%nat. Qed.

(** * Inputs beyond the exact range of doubles *)

(** C4: the product of the returned factors should be [n].  At
    [n = 2^54 + 2] the first quotient [2^53 + 1] is not a double: [n /= p]
    rounds it to [2^53], and the call returns 54 factors 2, whose product
    is [2^54]. *)
Theorem prime_factors_product_rounded :
  prime_factors 18014398509481986 ⇓ Return (replicate 54 2) ∧
  product (replicate 54 2) = 18014398509481984 ∧
  product (replicate 54 2) ≠ 18014398509481986.
Proof. split_and!; [run_with 80%nat | done | done]. Qed.

(** C5: the returned sequence should be the prime factors of [n] in
    non-decreasing order.  At [n = 3 * (2^53 + 1)], an odd number, the call
    returns 3 followed by 53 factors 2: the quotient [2^53 + 1] was rounded
    to [2^53].  The sequence is not ordered and 2 does not divide [n]. *)
Theorem prime_factors_order_rounded :
  prime_factors 27021597764222979 ⇓ Return (3 :: replicate 53 2) ∧
  ¬ Sorted Z.le (3 :: replicate 53 2) ∧
  ¬ (2 | 27021597764222979).
Proof.
  split_and!; [run_with 80%nat | |].
  - intros Hs. apply Sorted_inv in Hs as [_ Hhd].
    apply HdRel_inv in Hhd. lia.
  - intros [q Hq]. lia.
Qed.

(** C2: [mu] should be [(-1)^k] at a squarefree [n] with [k] distinct
    prime factors.  [n = 2 * 3 * 5 * 31 * 37 * 41 * 59 * 61 * 73 * 79 * 83 * 97]
    is squarefree with 12 prime factors, so [(-1)^12 = 1] is expected; the
    rounded quotient [n / 2] is a multiple of [2^7] and [mu] returns 0. *)
Theorem mu_squarefree_rounded :
  squarefree 235749160039807230 ∧
  distinct_prime_factors 235749160039807230
    [2; 3; 5; 31; 37; 41; 59; 61; 73; 79; 83; 97] ∧
  mu 235749160039807230 ⇓ Return 0 ∧
  (-1) ^ 12 = 1.
Proof.
  assert (Hps : squarefree (product [2; 3; 5; 31; 37; 41; 59; 61; 73; 79; 83; 97])
    ∧ distinct_prime_factors
        (product [2; 3; 5; 31; 37; 41; 59; 61; 73; 79; 83; 97])
        [2; 3; 5; 31; 37; 41; 59; 61; 73; 79; 83; 97]).
  { apply product_distinct_primes.
    - apply (bool_decide_unpack _). by vm_compute.
    - apply (bool_decide_unpack _). by vm_compute. }
  destruct Hps as [Hsq Hdpf].
  split_and!; [exact Hsq | exact Hdpf | run_with 400%nat | done].
Qed.

(** C10: [mu] should be multiplicative on coprime arguments.
    [a = 2 * 3 * 5 * 31 * 37 * 41] and [b = 59 * 61 * 73 * 79 * 83 * 97] are
    coprime with [mu a = mu b = 1], but the first quotient of [a * b] is
    rounded and [mu (a * b) = 0]. *)
Theorem mu_product_rounded :
  Z.gcd 1410810 167101991083 = 1 ∧
  mu 1410810 ⇓ Return 1 ∧
  mu 167101991083 ⇓ Return 1 ∧
  mu (1410810 * 167101991083) ⇓ Return 0.
Proof. split_and!; [done | run_with 400%nat..]. Qed.

(** C3: [mu n] should be one of -1, 0, 1 for every [n ≥ 1].  At
    [n = 2^1025] the quotient [2^1024] exceeds every double: the division
    raises [OverflowError] and [mu] returns nothing. *)
Theorem mu_overflow : mu (2 ^ 1025) ⇓ Raise OverflowError.
Proof. run_with 10%nat. Qed.

(** C7: the loop of [prime_factors] should reach the quotient 1 and [M] its
    base case for every [n ≥ 1].  At [n = 2^1025] the first division raises
    [OverflowError]: [prime_factors] leaves its loop at the quotient
    [2^1025] and [M] stops in its first call of [mu]. *)
Theorem prime_factors_overflow :
  prime_factors (2 ^ 1025) ⇓ Raise OverflowError ∧
  M (2 ^ 1025) ⇓ Raise OverflowError.
Proof. split; run_with 10%nat. Qed.

(** * Arguments below 1 *)

Lemma diverges_not_rejects {A} (c : nat → result A) : diverges c → ¬ rejects c.
Proof. intros Hd [e He]. by eapply diverges_not_evaluates. Qed.

Lemma no_value_bind {A B} (c : nat → result A) (f : A → nat → result B) :
  no_value c → no_value (λ k, c k ≫= λ a, f a k).
Proof. intros Hc k. specialize (Hc k). by destruct (c k). Qed.

Lemma diverges_bind {A B} (c : nat → result A) (f : A → nat → result B) :
  diverges c → diverges (λ k, c k ≫= λ a, f a k).
Proof. intros Hc k. by rewrite Hc. Qed.

Lemma float_of_Z_opp z :
  float_of_Z (- z) = (z' ← float_of_Z z; Return (- z')).
Proof.
  unfold float_of_Z. rewrite Z.abs_opp, Z.sgn_opp.
  repeat case_bool_decide; simpl; f_equal; lia.
Qed.

(** Below [2^1023] in magnitude nothing overflows, and the result stays
    within [2^1023]. *)
Lemma float_of_Z_nonpos_small z :
  - 2 ^ 1023 < z ≤ 0 → ∃ z', float_of_Z z = Return z' ∧ - 2 ^ 1024 < z' ≤ 0.
Proof.
  intros Hz. destruct (decide (z = 0)) as [-> | Hnz].
  { exists 0. by rewrite float_of_Z_exact. }
  replace z with (- - z) by lia. rewrite float_of_Z_opp.
  pose proof (float_of_Z_pos (- z) ltac:(lia)) as Hpos.
  destruct (float_of_Z (- z)) as [z' | e |]; [| lia | done].
  exists (- z'). split; [done|]. destruct Hpos as [Hz' Hpow].
  assert (Z.log2 (- z) < 1023) by (apply Z.log2_lt_pow2; lia).
  assert (2 ^ (Z.log2 (- z) + 1) ≤ 2 ^ 1023)
    by (apply Z.pow_le_mono_r; lia).
  lia.
Qed.

Lemma exact_div_nonpos n p : n ≤ 0 → 2 ≤ p → n `div` p ≤ 0.
Proof. intros Hn Hp. apply Z.div_le_upper_bound; lia. Qed.

Lemma while_loop_no_value n factors : n ≤ 0 → no_value (while_loop n factors).
Proof.
  intros Hn k. revert n factors Hn.
  induction k as [|k IH]; intros n factors Hn; [done|]. simpl.
  rewrite bool_decide_eq_true_2 by lia.
  pose proof (for_p_ok n (sieve (count 2)) k sieve_count_ok) as Hp.
  destruct (for_p n _ k) as [p | |]; simpl; [|done..].
  destruct Hp as [Hp _]. unfold truediv.
  rewrite bool_decide_eq_false_2 by lia.
  destruct (float_of_Z (n `div` p)) as [n' | e |] eqn:Hf; simpl.
  - apply IH. eapply float_of_Z_nonpos; [|done]. by apply exact_div_nonpos.
  - by eapply float_of_Z_exn.
  - done.
Qed.

Lemma while_loop_diverges n factors :
  - 2 ^ 1024 < n ≤ 0 → diverges (while_loop n factors).
Proof.
  intros Hn k. revert n factors Hn.
  induction k as [|k IH]; intros n factors Hn; [done|]. simpl.
  rewrite bool_decide_eq_true_2 by lia.
  pose proof (for_p_ok n (sieve (count 2)) k sieve_count_ok) as Hp.
  destruct (for_p n _ k) as [p | |]; simpl; [|done..].
  destruct Hp as [Hp [q ->]]. unfold truediv.
  rewrite bool_decide_eq_false_2 by lia. rewrite Z.div_mul by lia.
  destruct (float_of_Z_nonpos_small q) as (n' & -> & Hn'); [nia|].
  simpl. by apply IH.
Qed.

Lemma M_no_value n : n < 1 → no_value (M n).
Proof.
  intros Hn [|k]; [done|]. simpl. rewrite bool_decide_eq_false_2 by lia.
  apply (no_value_bind (mu n) (λ a k, b ← M (n - 1) k; Return (a + b))).
  unfold mu. apply (no_value_bind (prime_factors n)
                      (λ factors _, Return (mu_of_factors factors))).
  intros k'. unfold prime_factors. rewrite bool_decide_eq_false_2 by lia.
  apply while_loop_no_value. lia.
Qed.

Lemma prime_factors_no_value n : n < 1 → no_value (prime_factors n).
Proof.
  intros Hn k. unfold prime_factors. rewrite bool_decide_eq_false_2 by lia.
  apply while_loop_no_value. lia.
Qed.

Lemma mu_no_value n : n < 1 → no_value (mu n).
Proof.
  intros Hn. unfold mu.
  apply (no_value_bind (prime_factors n)
           (λ factors _, Return (mu_of_factors factors))).
  by apply prime_factors_no_value.
Qed.

Lemma prime_factors_diverges n :
  - 2 ^ 1024 < n < 1 → diverges (prime_factors n).
Proof.
  intros Hn k. unfold prime_factors. rewrite bool_decide_eq_false_2 by lia.
  apply while_loop_diverges. lia.
Qed.

Lemma mu_diverges n : - 2 ^ 1024 < n < 1 → diverges (mu n).
Proof.
  intros Hn. unfold mu.
  apply (diverges_bind (prime_factors n)
           (λ factors _, Return (mu_of_factors factors))).
  by apply prime_factors_diverges.
Qed.

Lemma M_diverges n : - 2 ^ 1024 < n < 1 → diverges (M n).
Proof.
  intros Hn [|k]; [done|]. simpl. rewrite bool_decide_eq_false_2 by lia.
  by rewrite mu_diverges.
Qed.

(** C6, as stated, fails at [n = 0]: none of the three calls ends with an
    exception; they run forever (2 divides 0, and [0 / 2] is 0 again). *)
Lemma zero_is_not_rejected :
  ¬ rejects (prime_factors 0) ∧ ¬ rejects (mu 0) ∧ ¬ rejects (M 0).
Proof.
  split_and!; apply diverges_not_rejects.
  - apply prime_factors_diverges. lia.
  - apply mu_diverges. lia.
  - apply M_diverges. lia.
Qed.

(** C6, amended: the functions make no check of their argument.  Called
    with [n < 1], none of them ever returns a value, so no wrong result is
    produced, but no invalid-argument error is raised either: the only
    exception is the [OverflowError] of the float division, and for
    [-2^1024 < n < 1] the call does not terminate. *)
Theorem below_one_never_returns n :
  n < 1 →
  (no_value (prime_factors n) ∧ no_value (mu n) ∧ no_value (M n)) ∧
  (- 2 ^ 1024 < n →
   diverges (prime_factors n) ∧ diverges (mu n) ∧ diverges (M n)).
Proof.
  intros Hn. split.
  - split_and!;
      [by apply prime_factors_no_value | by apply mu_no_value
      | by apply M_no_value].
  - intros Hlo. split_and!;
      [apply prime_factors_diverges | apply mu_diverges | apply M_diverges];
      lia.
Qed.

Lemma below_one_never_returns_witness :
  -4 < 1 ∧ - 2 ^ 1024 < -4 ∧
  (no_value (prime_factors (-4)) ∧ no_value (mu (-4)) ∧ no_value (M (-4))) ∧
  (diverges (prime_factors (-4)) ∧ diverges (mu (-4)) ∧ diverges (M (-4))).
Proof.
  split; [lia|]. split; [lia|].
  destruct (below_one_never_returns (-4)) as [Hnv Hdiv]; [lia|].
  split; [exact Hnv|]. apply Hdiv. lia.
Defined.

(** * The Mertens function as a sum *)

Lemma add_results_comm x y :
  settled_overflow x → settled_overflow y →
  add_results x y = add_results y x.
Proof.
  destruct x as [a | e |], y as [b | e' |]; simpl; try done.
  - intros _ _. f_equal. lia.
  - by intros -> ->.
Qed.

Lemma add_results_assoc x y z :
  add_results x (add_results y z) = add_results (add_results x y) z.
Proof.
  destruct x as [a | |], y as [b | |], z as [c | |]; simpl; try done.
  f_equal. lia.
Qed.

Lemma sum_results_snoc rs r :
  sum_results (rs ++ [r]) = add_results (sum_results rs) r.
Proof.
  induction rs as [|x rs IH]; simpl.
  - destruct r as [a | |]; simpl; [|done..]. f_equal. lia.
  - fold (sum_results (rs ++ [r])). fold (sum_results rs).
    by rewrite IH, add_results_assoc.
Qed.

Lemma sum_results_settled rs :
  Forall settled_overflow rs → settled_overflow (sum_results rs).
Proof.
  induction 1 as [|r rs Hr _ IH]; simpl; [done|].
  fold (sum_results rs). by destruct r, (sum_results rs).
Qed.

Lemma seqZ_snoc n : 0 ≤ n → seqZ 1 (n + 1) = seqZ 1 n ++ [n + 1].
Proof.
  intros Hn. rewrite seqZ_app by lia. f_equal.
  rewrite seqZ_cons by lia. rewrite seqZ_nil by lia. f_equal. lia.
Qed.

Lemma M_sum n :
  1 ≤ n →
  ∃ rs, Forall2 (λ k r, mu k ⇓ r) (seqZ 1 n) rs ∧
        Forall settled_overflow rs ∧ M n ⇓ sum_results rs.
Proof.
  intros Hn. induction (Z.lt_wf 1 n) as [n _ IH].
  destruct (mu_terminates n Hn) as (rmu & Hmu & Hsmu).
  destruct (decide (n = 1)) as [-> | Hn1].
  { exists [rmu]. split_and!.
    - change (seqZ 1 1) with [1]. constructor; [done | constructor].
    - constructor; [done | constructor].
    - apply M_evaluates_1. simpl. by destruct rmu as [a | |];
        simpl; [replace (a + 0) with a by lia|..]. }
  destruct (IH (n - 1)) as (rs & Hrs & Hsrs & HM); [lia.. |].
  exists (rs ++ [rmu]). split_and!.
  - replace n with (n - 1 + 1) at 1 by lia. rewrite seqZ_snoc by lia.
    apply Forall2_app; [done|]. replace (n - 1 + 1) with n by lia.
    constructor; [done | constructor].
  - apply Forall_app. split; [done | constructor; [done | constructor]].
  - rewrite sum_results_snoc.
    rewrite add_results_comm; [|by apply sum_results_settled | done].
    by apply M_evaluates_step.
Qed.

Lemma sum_snoc vs v : foldr Z.add 0 (vs ++ [v]) = foldr Z.add 0 vs + v.
Proof. induction vs as [|x vs IH]; simpl; lia. Qed.

(** Below the overflow threshold every call returns, and the sum is a sum
    of integers. *)
Lemma M_sum_values n :
  1 ≤ n < 2 ^ 1024 →
  ∃ vs, Forall2 (λ k v, mu k ⇓ Return v) (seqZ 1 n) vs ∧
        M n ⇓ Return (foldr Z.add 0 vs).
Proof.
  intros [Hn Hhi]. revert Hhi.
  induction (Z.lt_wf 1 n) as [n _ IH]; intros Hhi.
  destruct (mu_value n) as (l & _ & Hmu & _); [lia|].
  destruct (decide (n = 1)) as [-> | Hn1].
  { exists [mu_of_factors l]. split.
    - change (seqZ 1 1) with [1]. constructor; [done | constructor].
    - apply M_evaluates_1. simpl.
      by replace (mu_of_factors l + 0) with (mu_of_factors l) by lia. }
  destruct (IH (n - 1)) as (vs & Hvs & HM); [lia.. |].
  exists (vs ++ [mu_of_factors l]). split.
  - replace n with (n - 1 + 1) at 1 by lia. rewrite seqZ_snoc by lia.
    apply Forall2_app; [done|]. replace (n - 1 + 1) with n by lia.
    constructor; [done | constructor].
  - rewrite sum_snoc, Z.add_comm.
    by apply (M_evaluates_step n (Return (mu_of_factors l)) (Return _)).
Qed.

(** C1: [M 1] and [mu 1] are 1; [M (n + 1)] is [M n] plus [mu (n + 1)]
    for every [n ≥ 1] (the claim's [M(n) = M(n-1) + mu(n)] for [n > 1]);
    and [M n] is the sum of [mu 1], ..., [mu n].  The equalities are
    between the outcomes of the calls, which exist for every [n ≥ 1];
    below [2^1024] all of them are integers. *)
Theorem M_is_sum_of_mu n :
  1 ≤ n →
  mu 1 ⇓ Return 1 ∧ M 1 ⇓ Return 1 ∧
  (∃ rM rmu, M n ⇓ rM ∧ mu (n + 1) ⇓ rmu ∧
             M (n + 1) ⇓ add_results rM rmu) ∧
  (∃ rs, Forall2 (λ k r, mu k ⇓ r) (seqZ 1 n) rs ∧ M n ⇓ sum_results rs) ∧
  (n < 2 ^ 1024 →
   ∃ vs, Forall2 (λ k v, mu k ⇓ Return v) (seqZ 1 n) vs ∧
         M n ⇓ Return (foldr Z.add 0 vs)).
Proof.
  intros Hn. split_and!.
  - run_with 5%nat.
  - run_with 5%nat.
  - destruct (M_terminates n Hn) as (rM & HM & HsM).
    destruct (mu_terminates (n + 1)) as (rmu & Hmu & Hsmu); [lia|].
    exists rM, rmu. split_and!; [done.. |].
    rewrite add_results_comm by done.
    apply M_evaluates_step; [lia | done |].
    by replace (n + 1 - 1) with n by lia.
  - destruct (M_sum n Hn) as (rs & Hrs & _ & HM). by exists rs.
  - intros Hhi. by apply M_sum_values.
Qed.

Lemma M_is_sum_of_mu_witness :
  1 ≤ 3 ∧ 3 < 2 ^ 1024 ∧
  mu 1 ⇓ Return 1 ∧ M 1 ⇓ Return 1 ∧
  (∃ rM rmu, M 3 ⇓ rM ∧ mu (3 + 1) ⇓ rmu ∧
             M (3 + 1) ⇓ add_results rM rmu) ∧
  (∃ rs, Forall2 (λ k r, mu k ⇓ r) (seqZ 1 3) rs ∧ M 3 ⇓ sum_results rs) ∧
  (∃ vs, Forall2 (λ k v, mu k ⇓ Return v) (seqZ 1 3) vs ∧
         M 3 ⇓ Return (foldr Z.add 0 vs)).
Proof.
  split; [lia|]. split; [lia|].
  destruct (M_is_sum_of_mu 3) as (H1 & H2 & H3 & H4 & H5); [lia|].
  split_and!; [exact H1 | exact H2 | exact H3 | exact H4 | apply H5; lia].
Defined.

(** * One forward pass *)

Lemma forward_from_Ms len n0 total :
  1 ≤ n0 → M n0 ⇓ Return total →
  ∃ r, comprehension M (seqZ (n0 + 1) (Z.of_nat len)) ⇓ r ∧
       forward_from (seqZ (n0 + 1) (Z.of_nat len)) total ⇓ r.
Proof.
  revert n0 total. induction len as [|len IH]; intros n0 total Hn0 HM.
  { exists (Return []). split; by apply evaluates_pure. }
  rewrite seqZ_cons by lia.
  replace (Z.pred (Z.of_nat (S len))) with (Z.of_nat len) by lia.
  replace (Z.succ (n0 + 1)) with (n0 + 1 + 1) by lia.
  destruct (mu_terminates (n0 + 1)) as (rmu & Hmu & Hsmu); [lia|].
  assert (HM' : M (n0 + 1) ⇓ (a ← rmu; Return (total + a))).
  { pose proof (M_evaluates_step (n0 + 1) rmu (Return total)) as Hstep.
    replace (n0 + 1 - 1) with n0 in Hstep by lia.
    specialize (Hstep ltac:(lia) Hmu HM).
    destruct rmu as [a | |]; simpl in *; [|done..].
    by replace (total + a) with (a + total) by lia. }
  destruct rmu as [v | e |]; simpl in *; [| |done].
  - destruct (IH (n0 + 1) (total + v)) as (r & HMs & Hfw); [lia | done |].
    exists (rest ← r; Return (total + v :: rest)). split.
    + apply (evaluates_bind (M (n0 + 1))
               (λ y k, ys ← comprehension M _ k; Return (y :: ys))
               (Return (total + v))); [done | | done].
      intros y [= <-].
      apply (evaluates_bind (comprehension M _)
               (λ ys _, Return (total + v :: ys)) r); [done | |].
      * intros ys ->. by apply evaluates_pure.
      * by intros e ->.
    + apply (evaluates_bind (mu (n0 + 1))
               (λ v k, rest ← forward_from _ (total + v) k;
                       Return (total + v :: rest))
               (Return v)); [done | | done].
      intros v' [= <-].
      apply (evaluates_bind (forward_from _ (total + v))
               (λ rest _, Return (total + v :: rest)) r); [done | |].
      * intros ys ->. by apply evaluates_pure.
      * by intros e ->.
  - exists (Raise e). split.
    + by apply (evaluates_bind (M (n0 + 1))
                  (λ y k, ys ← comprehension M _ k; Return (y :: ys))
                  (Raise e)); [| |intros e' [= <-]].
    + by apply (evaluates_bind (mu (n0 + 1))
                  (λ v k, rest ← forward_from _ (total + v) k;
                          Return (total + v :: rest))
                  (Raise e)); [| |intros e' [= <-]].
Qed.

Lemma comprehension_values {A B} (f : A → nat → result B) (l : list A) :
  Forall (λ x, ∃ v, f x ⇓ Return v) l →
  ∃ vs, comprehension f l ⇓ Return vs ∧ length vs = length l.
Proof.
  induction 1 as [|x l [v Hv] _ (vs & Hvs & Hlen)].
  { exists []. split; [by apply evaluates_pure | done]. }
  exists (v :: vs). split; [|simpl; lia]. simpl.
  apply (evaluates_bind (f x)
           (λ y k, ys ← comprehension f l k; Return (y :: ys))
           (Return v)); [done | | done].
  intros y [= <-].
  apply (evaluates_bind (comprehension f l)
           (λ ys _, Return (v :: ys)) (Return vs)); [done | | done].
  intros ys [= <-]. by apply evaluates_pure.
Qed.

(** C8: for every [N ≥ 1], the forward pass and the independent
    computation of [M(1)], ..., [M(N)] have the same outcome: the same
    sequence (or, when a call of [mu] fails, the same failure).  Below
    [2^1024] the outcome is a sequence of [N] integers. *)
Theorem forward_pass_equivalent N :
  1 ≤ N →
  ∃ r, Ms N ⇓ r ∧ forward_pass N ⇓ r ∧
       (N < 2 ^ 1024 → ∃ l, r = Return l ∧ length l = Z.to_nat N).
Proof.
  intros HN.
  assert (Hboth : ∃ r, Ms N ⇓ r ∧ forward_pass N ⇓ r).
  { unfold Ms, forward_pass.
    rewrite seqZ_cons by lia. replace (Z.succ 1) with (1 + 1) by lia.
    replace (Z.pred N) with (Z.of_nat (Z.to_nat (N - 1))) by lia.
    assert (Hmu : mu 1 ⇓ Return 1) by run_with 5%nat.
    assert (HM : M 1 ⇓ Return 1) by run_with 5%nat.
    destruct (forward_from_Ms (Z.to_nat (N - 1)) 1 1) as (r & HMs & Hfw);
      [lia | done |].
    exists (rest ← r; Return (1 :: rest)). split.
    - apply (evaluates_bind (M 1)
               (λ y k, ys ← comprehension M _ k; Return (y :: ys))
               (Return 1)); [done | | done].
      intros y [= <-].
      apply (evaluates_bind (comprehension M _)
               (λ ys _, Return (1 :: ys)) r); [done | |].
      + intros ys ->. by apply evaluates_pure.
      + by intros e ->.
    - apply (evaluates_bind (mu 1)
               (λ v k, rest ← forward_from _ v k; Return (v :: rest))
               (Return 1)); [done | | done].
      intros v [= <-].
      apply (evaluates_bind (forward_from _ 1)
               (λ rest _, Return (1 :: rest)) r); [done | |].
      + intros ys ->. by apply evaluates_pure.
      + by intros e ->. }
  destruct Hboth as (r & HMs & Hfw). exists r. split_and!; [done.. |].
  intros Hhi.
  destruct (comprehension_values M (seqZ 1 N)) as (l & Hl & Hlen).
  { apply Forall_seqZ. intros n Hn. apply M_value. lia. }
  exists l. split; [|by rewrite Hlen, length_seqZ].
  apply (evaluates_det (Ms N)); [exact HMs | exact Hl].
Qed.

Lemma forward_pass_equivalent_witness :
  1 ≤ 4 ∧ 4 < 2 ^ 1024 ∧
  ∃ r, Ms 4 ⇓ r ∧ forward_pass 4 ⇓ r ∧
       ∃ l, r = Return l ∧ length l = Z.to_nat 4.
Proof.
  split; [lia|]. split; [lia|].
  destruct (forward_pass_equivalent 4) as (r & HMs & Hfw & Hl); [lia|].
  exists r. split_and!; [exact HMs | exact Hfw | apply Hl; lia].
Defined.

(** * The exceptions of the code *)

Lemma while_loop_exn n factors k e :
  while_loop n factors k = Raise e → e = OverflowError.
Proof.
  revert n factors. induction k as [|k IH]; intros n factors; [done|].
  simpl. case_bool_decide; [|done].
  pose proof (for_p_ok n (sieve (count 2)) k sieve_count_ok) as Hp.
  destruct (for_p n _ k) as [p | |]; simpl; [|done..].
  destruct Hp as [Hp _]. unfold truediv.
  rewrite bool_decide_eq_false_2 by lia.
  destruct (float_of_Z (n `div` p)) as [n' | e' |] eqn:Hf; simpl; [| |done].
  - apply IH.
  - intros [= <-]. by eapply float_of_Z_exn.
Qed.

(** X4: whatever the integer [n] and however long the call runs, the
    arithmetic of [prime_factors], [mu] and [M] raises no
    [ZeroDivisionError]: the sieve yields nothing below 2, so that no [%]
    and no [/] ever has a zero divisor, and the only exception is the
    [OverflowError] of the division. *)
Theorem only_OverflowError n k e :
  (prime_factors n k = Raise e → e = OverflowError) ∧
  (mu n k = Raise e → e = OverflowError) ∧
  (M n k = Raise e → e = OverflowError).
Proof.
  assert (Hpf : ∀ n k, prime_factors n k = Raise e → e = OverflowError).
  { intros n' k'. unfold prime_factors. case_bool_decide; [done|].
    apply while_loop_exn. }
  assert (Hmu : ∀ n k, mu n k = Raise e → e = OverflowError).
  { intros n' k'. unfold mu. specialize (Hpf n' k').
    destruct (prime_factors n' k'); simpl; [done | | done].
    intros [= ->]. by apply Hpf. }
  split_and!; [apply Hpf | apply Hmu |].
  revert n. induction k as [|k IH]; intros n; [done|]. simpl.
  case_bool_decide; [apply Hmu|].
  specialize (Hmu n k). destruct (mu n k) as [a | e' |]; simpl; [| |done].
  - specialize (IH (n - 1)). destruct (M (n - 1) k); simpl; [done | | done].
    intros [= ->]. by apply IH.
  - intros [= ->]. by apply Hmu.
Qed.

(** * The [for] loop over the sieve *)

Lemma least_divisor_exists_abs n :
  n ≠ 1 → n ≠ -1 → ∃ d, least_divisor n d.
Proof.
  intros H1 Hm1. destruct (decide (n = 0)) as [-> | H0].
  { exists 2. split_and!; [lia | apply Z.divide_0_r | lia]. }
  destruct (least_from (λ i, (i | n)) 2 (Z.abs n)) as (d & Hd & Hdn & Hleast);
    [lia | apply Z.divide_abs_l; reflexivity |].
  exists d. by split_and!; [lia | |].
Qed.

(** X2: the [for] loop of [prime_factors] breaks at the smallest prime factor
    of [n], for every [n] other than 1 and -1 (2 for [n = 0]). *)
Theorem for_p_smallest_prime_factor n :
  n ≠ 1 → n ≠ -1 →
  ∃ p, for_p n (sieve (count 2)) ⇓ Return p ∧
       Z.prime p ∧ (p | n) ∧ ∀ q, Z.prime q → (q | n) → p ≤ q.
Proof.
  intros H1 Hm1. destruct (least_divisor_exists_abs n H1 Hm1) as [d Hd].
  exists d. split_and!.
  - split; [done|]. exists (2 * Z.to_nat d)%nat. intros k Hk.
    by apply for_p_least.
  - by eapply least_divisor_prime.
  - by destruct Hd as (_ & ? & _).
  - intros q Hq Hqn. destruct Hd as (_ & _ & Hleast).
    destruct (decide (d ≤ q)) as [|Hlt]; [done|].
    destruct (Hleast q); [|done]. apply Z.prime_ge_2 in Hq. lia.
Qed.

Lemma for_p_smallest_prime_factor_witness :
  12 ≠ 1 ∧ 12 ≠ -1 ∧
  ∃ p, for_p 12 (sieve (count 2)) ⇓ Return p ∧
       Z.prime p ∧ (p | 12) ∧ ∀ q, Z.prime q → (q | 12) → p ≤ q.
Proof.
  split; [lia|]. split; [lia|]. apply (for_p_smallest_prime_factor 12); lia.
Defined.

(** X3: on 1 and on -1 the [for] loop never ends: no value of the sieve divides
    them.  The guard [while n != 1] keeps 1 away from it, nothing keeps -1
    away. *)
Theorem for_p_unit_diverges n :
  n = 1 ∨ n = -1 → diverges (for_p n (sieve (count 2))).
Proof.
  intros Hn k.
  pose proof (for_p_ok n (sieve (count 2)) k sieve_count_ok) as Hp.
  destruct (for_p n _ k) as [p | |]; [|done..].
  destruct Hp as [Hp Hdiv]. exfalso.
  assert (Hp1 : (p | 1)).
  { destruct Hn as [-> | ->]; [done|]. by apply Z.divide_opp_r in Hdiv. }
  apply Z.divide_pos_le in Hp1; lia.
Qed.

Lemma for_p_unit_diverges_witness :
  (-1 = 1 ∨ -1 = -1) ∧ diverges (for_p (-1) (sieve (count 2))).
Proof.
  split; [by right|]. apply (for_p_unit_diverges (-1)). by right.
Defined.

(** * The values of the sieve *)

(** Euclid: there is a prime at or above every bound. *)
Lemma prime_above c : ∃ p, Z.prime p ∧ c ≤ p.
Proof.
  set (F := product (seqZ 2 (c - 2))).
  assert (HF : 1 ≤ F).
  { unfold F. generalize (seqZ 2 (c - 2)) (Forall_seqZ (λ i, 2 ≤ i) 2 (c - 2)).
    intros l Hl. assert (Hall : Forall (λ i, 2 ≤ i) l) by (apply Hl; lia).
    clear Hl. induction Hall as [|x l Hx _ IH]; simpl; [done | nia]. }
  destruct (least_divisor_exists (F + 1)) as (d & Hd & _); [lia|].
  exists d. split; [by eapply least_divisor_prime|].
  destruct Hd as (Hd2 & Hdiv & _).
  destruct (decide (c ≤ d)) as [|Hlt]; [done|]. exfalso.
  assert (HdF : (d | F)).
  { apply elem_of_divide_product. apply elem_of_seqZ. lia. }
  assert (Hd1 : (d | 1)).
  { replace 1 with (F + 1 - F) by lia. by apply Z.divide_sub_r. }
  apply Z.divide_pos_le in Hd1; lia.
Qed.

(** The least prime at or above [c]. *)
Lemma next_prime c :
  ∃ p, Z.prime p ∧ c ≤ p ∧ ∀ i, c ≤ i < p → ¬ Z.prime i.
Proof.
  destruct (prime_above c) as (p0 & Hp0 & Hc).
  destruct (least_from Z.prime c p0) as (p & Hp & Hprime & Hleast); [done.. |].
  exists p. split_and!; [done | lia | done].
Qed.

(** With the primes below [c] installed as filters, the next value of the
    sieve is the least prime from [c] on. *)
Lemma next_sieve_prime fs c p :
  2 ≤ c →
  Forall (λ f, Z.prime f ∧ f < c) fs →
  (∀ q, Z.prime q → q < c → q ∈ fs) →
  Z.prime p → c ≤ p → (∀ i, c ≤ i < p → ¬ Z.prime i) →
  next (sieve (chain fs c)) ⇓ Return (p, sieve (chain (p :: fs) (p + 1))).
Proof.
  intros Hc Hfs Hall Hp Hcp Hleast. split; [done|].
  exists (S (S (Z.to_nat (p - c) + length fs))). intros k Hk.
  apply next_sieve_chain; [| done | | | lia].
  - eapply Forall_impl; [exact Hfs|]. simpl. intros f [Hf _].
    apply Z.prime_ge_2 in Hf. lia.
  - eapply Forall_impl; [exact Hfs|]. simpl. intros f [Hf Hfc] Hmod.
    apply Z.mod_divide in Hmod; [|apply Z.prime_ge_2 in Hf; lia].
    apply Z.divide_prime_prime in Hmod; [lia | done..].
  - intros i Hi Hpass.
    destruct (least_divisor_exists i) as (d & Hd & Hdi); [lia|].
    pose proof (least_divisor_prime i d Hd) as Hdp.
    destruct Hd as (Hd2 & Hddiv & _).
    assert (d ≠ i) by (intros ->; by apply (Hleast i)).
    assert (Hdc : d < c).
    { destruct (decide (d < c)) as [|Hge]; [done|].
      destruct (Hleast d); [lia | done]. }
    pose proof (proj1 (Forall_forall _ _) Hpass d (Hall d Hdp Hdc)) as Hnd.
    apply Hnd. apply Z.mod_divide; [lia | done].
Qed.

Lemma first_values_cons k g x g' xs :
  next g ⇓ Return (x, g') → first_values k g' ⇓ Return xs →
  first_values (S k) g ⇓ Return (x :: xs).
Proof.
  intros [_ [k1 H1]] [_ [k2 H2]]. split; [done|].
  exists (k1 `max` k2)%nat. intros fuel Hfuel. simpl.
  rewrite H1 by lia. simpl. by rewrite H2 by lia.
Qed.

Lemma first_values_primes k fs c :
  2 ≤ c →
  Forall (λ f, Z.prime f ∧ f < c) fs →
  (∀ q, Z.prime q → q < c → q ∈ fs) →
  ∃ ps, first_values k (sieve (chain fs c)) ⇓ Return ps ∧
        length ps = k ∧ Forall Z.prime ps ∧ Forall (Z.le c) ps ∧
        Sorted Z.lt ps ∧
        ∀ q x, Z.prime q → c ≤ q → x ∈ ps → q ≤ x → q ∈ ps.
Proof.
  revert fs c. induction k as [|k IH]; intros fs c Hc Hfs Hall.
  { exists []. split_and!; [by apply evaluates_pure | done.. |].
    intros q x _ _ Hx. by apply elem_of_nil in Hx. }
  destruct (next_prime c) as (p & Hp & Hcp & Hleast).
  destruct (IH (p :: fs) (p + 1)) as (ps & Hrun & Hlen & Hps & Hge & Hs & Hcl).
  { lia. }
  { constructor; [split; [done | lia]|].
    eapply Forall_impl; [exact Hfs|]. simpl. intros f [? ?]. split; [done | lia]. }
  { intros q Hq Hqp. destruct (decide (q = p)) as [-> | Hne]; [left|].
    right. apply Hall; [done|].
    destruct (decide (q < c)) as [|Hqc]; [done|].
    destruct (Hleast q); [lia | done]. }
  exists (p :: ps). split_and!.
  - eapply first_values_cons; [by apply next_sieve_prime | done].
  - simpl. by rewrite Hlen.
  - by constructor.
  - constructor; [done|]. eapply Forall_impl; [exact Hge|]. simpl. lia.
  - constructor; [done|]. destruct Hge as [|y ps' Hy _]; constructor. lia.
  - intros q x Hq Hcq Hx Hqx.
    destruct (decide (q = p)) as [-> | Hne]; [left|]. right.
    assert (p < q).
    { destruct (decide (p < q)) as [|Hge']; [done|].
      destruct (Hleast q); [lia | done]. }
    apply elem_of_cons in Hx as [-> | Hx]; [lia|].
    by apply (Hcl q x); [| lia | |].
Qed.

(** X1: [sieve(itertools.count(start=2))] yields the primes in increasing
    order, none left out: whatever [k], its first [k] values are the [k]
    smallest primes. *)
Theorem sieve_yields_primes (k : nat) :
  ∃ ps, first_values k (sieve (count 2)) ⇓ Return ps ∧
        length ps = k ∧ Forall Z.prime ps ∧ Sorted Z.lt ps ∧
        ∀ q x, Z.prime q → x ∈ ps → q ≤ x → q ∈ ps.
Proof.
  destruct (first_values_primes k [] 2) as (ps & Hrun & Hlen & Hps & _ & Hs & Hcl).
  { done. }
  { constructor. }
  { intros q Hq Hq2. apply Z.prime_ge_2 in Hq. lia. }
  exists ps. split_and!; [done.. |].
  intros q x Hq Hx Hqx. apply (Hcl q x); [done | | done..].
  by apply Z.prime_ge_2.
Qed.

(** * Quotients that are doubles *)

(** The shape of a rounded magnitude: a mantissa of 53 bits times the unit
    in the last place; unchanged when the magnitude is a multiple of the
    unit, and a multiple of 4 otherwise. *)
Lemma round_half_even_form a :
  2 ^ 53 ≤ a →
  let e := Z.log2 a - 52 in
  ∃ m', round_half_even a e = m' * 2 ^ e ∧ 2 ^ 52 ≤ m' ≤ 2 ^ 53 ∧
        (a `mod` 2 ^ e = 0 → m' * 2 ^ e = a) ∧
        (a `mod` 2 ^ e ≠ 0 → (4 | m' * 2 ^ e)).
Proof.
  intros Ha. pose proof (Z.log2_spec a ltac:(lia)) as [Hlo Hhi].
  assert (53 ≤ Z.log2 a) by (apply Z.log2_le_pow2; lia).
  set (e := Z.log2 a - 52) in *. cbv zeta.
  assert (He : Z.log2 a = 52 + e) by lia.
  rewrite He in *. replace (Z.succ (52 + e)) with (53 + e) in Hhi by lia.
  rewrite Z.pow_add_r in Hlo, Hhi by lia.
  unfold round_half_even.
  assert (Hh : 2 ^ e = 2 * 2 ^ (e - 1)).
  { rewrite <- Z.pow_succ_r by lia. f_equal. lia. }
  assert (Hh1 : 0 < 2 ^ (e - 1)) by (apply Z.pow_pos_nonneg; lia).
  set (P := 2 ^ e) in *. set (h := 2 ^ (e - 1)) in *.
  pose proof (Z.div_mod a P ltac:(lia)) as Hdm.
  pose proof (Z.mod_pos_bound a P ltac:(lia)) as Hr.
  set (m := a `div` P) in *. set (r := a `mod` P) in *.
  assert (2 ^ 52 ≤ m < 2 ^ 53) by nia.
  cbv zeta.
  assert (Hfour : ∀ m', (1 < h ∨ Z.even m' = true) → (4 | m' * P)).
  { intros m' [Hh2 | Hev].
    - assert (Hh' : h = 2 * 2 ^ (e - 2)).
      { unfold h. rewrite <- Z.pow_succ_r; [f_equal; lia|].
        destruct (decide (0 ≤ e - 2)) as [|Hneg]; [done|].
        assert (e - 1 = 0) as Hz by lia. unfold h in Hh2. rewrite Hz in Hh2.
        simpl in Hh2. lia. }
      exists (m' * 2 ^ (e - 2)). lia.
    - apply Z.even_spec in Hev as [t ->]. exists (t * h). lia. }
  case_bool_decide as H1; [|case_bool_decide as H2].
  - exists m. split_and!; [done | lia | lia | lia |].
    intros Hne. apply Hfour. left. lia.
  - exists (m + 1). split_and!; [done | lia | lia | lia |].
    intros Hne. apply Hfour. left. lia.
  - assert (r = h) by lia.
    destruct (Z.even m) eqn:Hev.
    + exists m. split_and!; [done | lia | lia | lia |].
      intros _. apply Hfour. by right.
    + exists (m + 1). split_and!; [done | lia | lia | lia |].
      intros _. apply Hfour. right.
      rewrite Z.even_add, Hev. done.
Qed.

Lemma representable_mantissa m' e :
  2 ^ 52 ≤ m' < 2 ^ 53 → 1 ≤ e → m' * 2 ^ e < 2 ^ 1024 →
  representable (m' * 2 ^ e).
Proof.
  intros Hm He Hov.
  assert (HP : 0 < 2 ^ e) by (apply Z.pow_pos_nonneg; lia).
  assert (Hlog : Z.log2 (m' * 2 ^ e) = 52 + e).
  { apply Z.log2_unique; [lia|].
    replace (Z.succ (52 + e)) with (53 + e) by lia.
    rewrite !Z.pow_add_r by lia.
    split; [apply Z.mul_le_mono_nonneg_r | apply Z.mul_lt_mono_pos_r]; lia. }
  assert (0 < m' * 2 ^ e) by (apply Z.mul_pos_pos; lia).
  unfold representable, float_of_Z. rewrite Z.abs_eq by lia. rewrite Hlog.
  rewrite bool_decide_eq_false_2 by lia.
  replace (52 + e - 52) with e by lia.
  assert (Hround : round_half_even (m' * 2 ^ e) e = m' * 2 ^ e).
  { unfold round_half_even. rewrite Z.div_mul, Z.mod_mul by lia.
    rewrite bool_decide_eq_true_2; [done|]. apply Z.pow_pos_nonneg; lia. }
  rewrite Hround. rewrite bool_decide_eq_false_2 by lia.
  rewrite Z.sgn_pos by lia. f_equal. lia.
Qed.

Lemma representable_form m' e :
  2 ^ 52 ≤ m' ≤ 2 ^ 53 → 1 ≤ e → m' * 2 ^ e < 2 ^ 1024 →
  representable (m' * 2 ^ e).
Proof.
  intros Hm He Hov. destruct (decide (m' = 2 ^ 53)) as [-> | Hne].
  - replace (2 ^ 53 * 2 ^ e) with (2 ^ 52 * 2 ^ (e + 1)) in *.
    2:{ rewrite (Z.pow_add_r 2 e 1) by lia. lia. }
    apply representable_mantissa; [lia | lia | done].
  - apply representable_mantissa; [lia | done..].
Qed.

(** The result of a conversion converts to itself. *)
Lemma float_of_Z_representable q n' :
  1 ≤ q → float_of_Z q = Return n' → representable n'.
Proof.
  intros Hq Hf. unfold float_of_Z in Hf. rewrite Z.abs_eq in Hf by lia.
  case_bool_decide as He.
  { injection Hf as <-. apply float_of_Z_exact.
    assert (Z.log2 q < 53) by lia.
    apply Z.log2_lt_pow2 in H; lia. }
  case_bool_decide as Hov; [done|]. injection Hf as <-.
  rewrite Z.sgn_pos, Z.mul_1_l by lia.
  pose proof (Z.log2_spec q ltac:(lia)) as [Hlo _].
  assert (2 ^ 53 ≤ q).
  { etrans; [|exact Hlo]. apply Z.pow_le_mono_r; lia. }
  destruct (round_half_even_form q ltac:(done)) as (m' & Hm' & Hb & _).
  cbv zeta in Hm'. rewrite Hm' in Hov |- *.
  apply representable_form; [done | lia | lia].
Qed.

(** Above 53 bits a double is a multiple of its unit in the last place. *)
Lemma representable_multiple a :
  2 ^ 53 ≤ a → representable a →
  a `mod` 2 ^ (Z.log2 a - 52) = 0 ∧ a < 2 ^ 1024.
Proof.
  intros Ha Hr. unfold representable, float_of_Z in Hr.
  rewrite Z.abs_eq, Z.sgn_pos, Z.mul_1_l in Hr by lia.
  pose proof (Z.log2_le_pow2 a 53 ltac:(lia)) as [Hl _].
  rewrite bool_decide_eq_false_2 in Hr by lia.
  case_bool_decide as Hov; [done|]. injection Hr as Hr.
  destruct (round_half_even_form a Ha) as (m' & Hm' & _).
  cbv zeta in Hm'. split; [|lia].
  rewrite <- Hr at 1. rewrite Hm'. apply Z.mod_mul.
  apply Z.pow_nonzero; lia.
Qed.

(** Dividing a double by its least divisor is exact. *)
Lemma representable_quotient n d :
  2 ≤ n → representable n → least_divisor n d →
  representable (n `div` d) ∧ 1 ≤ n `div` d < n.
Proof.
  intros Hn Hr (Hd2 & [q Hq] & Hleast).
  assert (Hdiv : n `div` d = q) by (subst n; apply Z.div_mul; lia).
  rewrite Hdiv. split; [|nia].
  destruct (decide (n < 2 ^ 54)) as [Hsmall | Hbig].
  { apply float_of_Z_exact. nia. }
  destruct (representable_multiple n ltac:(lia) Hr) as [Hmod Hov].
  pose proof (Z.log2_spec n ltac:(lia)) as [Hlo Hhi].
  assert (54 ≤ Z.log2 n) by (apply Z.log2_le_pow2; lia).
  set (e := Z.log2 n - 52) in *.
  assert (He : Z.log2 n = 52 + e) by lia.
  rewrite He in Hlo, Hhi. replace (Z.succ (52 + e)) with (53 + e) in Hhi by lia.
  rewrite Z.pow_add_r in Hlo, Hhi by lia.
  assert (Hh : 2 ^ e = 2 * 2 ^ (e - 1)).
  { rewrite <- Z.pow_succ_r by lia. f_equal. lia. }
  assert (HP : 0 < 2 ^ (e - 1)) by (apply Z.pow_pos_nonneg; lia).
  apply Z.mod_divide in Hmod as [m Hm]; [|lia].
  assert (d = 2) as ->.
  { destruct (decide (d = 2)) as [|Hne]; [done|].
    destruct (Hleast 2); [lia|]. exists (m * 2 ^ (e - 1)). lia. }
  assert (q = m * 2 ^ (e - 1)) as -> by lia.
  apply representable_form; [nia | lia | nia].
Qed.

(** From a double the loop divides exactly all the way, and computes the
    ordered prime factorisation. *)
Lemma loop_run_representable n lb :
  1 ≤ n → representable n →
  (∀ i, 2 ≤ i → (i | n) → lb ≤ i) →
  ∃ l, (∀ factors, loop_run n factors (Return (factors ++ l))) ∧
       Forall Z.prime l ∧ Sorted Z.le l ∧ Forall (Z.le lb) l ∧
       product l = n.
Proof.
  intros Hn. revert lb.
  induction (Z.lt_wf 1 n) as [n _ IH]; intros lb Hr Hlb.
  destruct (decide (n = 1)) as [-> | Hn1].
  { exists []. split_and!; [|done..]. intros factors.
    rewrite app_nil_r. constructor. }
  destruct (least_divisor_exists n) as (d & Hd & Hdn); [lia|].
  destruct (representable_quotient n d ltac:(lia) Hr Hd) as [Hrq Hq].
  pose proof Hd as (Hd2 & Hddiv & Hleast).
  destruct (IH (n `div` d) ltac:(lia) ltac:(lia) d Hrq)
    as (l & Hrun & Hprime & Hsorted & Hge & Hprod).
  { intros i Hi Hiq. destruct (decide (d ≤ i)) as [|Hlt]; [done|].
    destruct (Hleast i); [lia|]. etrans; [exact Hiq|].
    destruct Hddiv as [q ->]. rewrite Z.div_mul by lia.
    apply Z.divide_factor_l. }
  exists (d :: l). split_and!.
  - intros factors. eapply run_step; [done | done | exact Hrq |].
    rewrite (cons_middle d factors l), app_assoc. apply Hrun.
  - constructor; [by eapply least_divisor_prime | done].
  - constructor; [done|]. destruct Hge; by constructor.
  - constructor; [by apply Hlb; [lia|] |].
    eapply Forall_impl; [exact Hge|]. simpl. intros x Hx.
    etrans; [|exact Hx]. apply Hlb; [lia | done].
  - simpl. rewrite Hprod. destruct Hddiv as [q ->].
    rewrite Z.div_mul by lia. lia.
Qed.

(** * The factors of any input *)

Lemma least_divisor_quotient n d :
  2 ≤ n → least_divisor n d →
  1 ≤ n `div` d ∧ n = d * (n `div` d) ∧
  ∀ i, 2 ≤ i → (i | n `div` d) → d ≤ i.
Proof.
  intros Hn (Hd2 & [q Hq] & Hleast).
  assert (Hdiv : n `div` d = q) by (subst n; apply Z.div_mul; lia).
  rewrite Hdiv. split_and!; [nia | lia |].
  intros i Hi Hiq. destruct (decide (d ≤ i)) as [|Hlt]; [done|].
  destruct (Hleast i); [lia|]. subst n. by apply Z.divide_mul_l.
Qed.

(** The run of the loop after its first division. *)
Lemma loop_run_first_division n d n' lb :
  2 ≤ n → least_divisor n d → float_of_Z (n `div` d) = Return n' →
  (∀ i, 2 ≤ i → (i | n') → lb ≤ i) →
  ∃ l, prime_factors n ⇓ Return (d :: l) ∧
       Forall Z.prime l ∧ Sorted Z.le l ∧ Forall (Z.le lb) l ∧
       product l = n'.
Proof.
  intros Hn Hd Hf Hlb.
  destruct (least_divisor_quotient n d Hn Hd) as (Hq & _ & _).
  pose proof (float_of_Z_pos _ Hq) as Hpos. rewrite Hf in Hpos.
  destruct (loop_run_representable n' lb) as (l & Hrun & Hl);
    [lia | by eapply float_of_Z_representable | done |].
  exists l. split; [|done].
  apply prime_factors_run.
  eapply run_step; [lia | exact Hd | exact Hf | exact (Hrun ([] ++ [d]))].
Qed.

(** The first division overflows. *)
Lemma prime_factors_first_raise n d e :
  2 ≤ n → least_divisor n d → float_of_Z (n `div` d) = Raise e →
  prime_factors n ⇓ Raise OverflowError.
Proof.
  intros Hn Hd Hf. apply prime_factors_run.
  rewrite <- (float_of_Z_exn _ _ Hf).
  eapply run_raise; [lia | exact Hd | exact Hf].
Qed.

Lemma float_of_Z_settled z : float_of_Z z ≠ OutOfFuel.
Proof. unfold float_of_Z. by repeat case_bool_decide. Qed.

(** X5: for [n ≥ 2] with least divisor [d], [prime_factors n] is settled by
    the first division: when the quotient [n / d] rounds to the double
    [n'], the call returns [d] followed by the prime factors of [n'] in
    nondecreasing order; when the quotient is beyond the doubles, the call
    raises [OverflowError]. *)
Theorem prime_factors_first_division n d :
  2 ≤ n → least_divisor n d →
  match float_of_Z (n `div` d) with
  | Return n' =>
    ∃ l, prime_factors n ⇓ Return (d :: l) ∧ Z.prime d ∧
         Forall Z.prime l ∧ Sorted Z.le l ∧ product l = n'
  | Raise _ => prime_factors n ⇓ Raise OverflowError
  | OutOfFuel => False
  end.
Proof.
  intros Hn Hd.
  destruct (least_divisor_quotient n d Hn Hd) as (Hq & _ & _).
  pose proof (float_of_Z_pos _ Hq) as Hpos.
  destruct (float_of_Z (n `div` d)) as [n' | e |] eqn:Hf; [| |done].
  - destruct (loop_run_first_division n d n' 2 Hn Hd Hf)
      as (l & Hrun & Hl & Hs & _ & Hprod); [by intros|].
    exists l. split_and!; [done | by eapply least_divisor_prime | done..].
  - by eapply prime_factors_first_raise.
Qed.

Lemma least_divisor_2 n : 2 ≤ n → (2 | n) → least_divisor n 2.
Proof. intros Hn H2. split_and!; [lia | done | lia]. Qed.

Lemma prime_factors_first_division_witness :
  2 ≤ 2 ^ 54 + 2 ∧ least_divisor (2 ^ 54 + 2) 2 ∧
  ∃ l, prime_factors (2 ^ 54 + 2) ⇓ Return (2 :: l) ∧ Z.prime 2 ∧
       Forall Z.prime l ∧ Sorted Z.le l ∧ product l = 2 ^ 53.
Proof.
  assert (Hd : least_divisor (2 ^ 54 + 2) 2).
  { apply least_divisor_2; [lia|]. by exists (2 ^ 53 + 1). }
  split; [lia|]. split; [exact Hd|].
  exact (prime_factors_first_division (2 ^ 54 + 2) 2 ltac:(lia) Hd).
Defined.

(** X6: [prime_factors n] returns the prime factorisation of [n] exactly
    when the quotient of [n] by its least divisor is a double: then the
    list is the nondecreasing list of primes of product [n], and a returned
    list of product [n] is only possible then. *)
Theorem prime_factors_correct_iff n d :
  2 ≤ n → least_divisor n d →
  (representable (n `div` d) →
   ∃ factors, prime_factors n ⇓ Return factors ∧ Forall Z.prime factors ∧
              Sorted Z.le factors ∧ product factors = n) ∧
  (∀ factors, prime_factors n ⇓ Return factors → product factors = n →
              representable (n `div` d)).
Proof.
  intros Hn Hd.
  destruct (least_divisor_quotient n d Hn Hd) as (Hq & Hnd & Hge).
  pose proof Hd as (Hd2 & _ & _). split.
  - intros Hr.
    destruct (loop_run_first_division n d (n `div` d) d Hn Hd Hr Hge)
      as (l & Hrun & Hl & Hs & Hdl & Hprod).
    exists (d :: l). split_and!; [done | | | simpl; lia].
    + constructor; [by eapply least_divisor_prime | done].
    + constructor; [done|]. destruct Hdl; by constructor.
  - intros factors Hrun Hprod.
    destruct (float_of_Z (n `div` d)) as [n' | e |] eqn:Hf.
    + destruct (loop_run_first_division n d n' 2 Hn Hd Hf)
        as (l & Hrun' & _ & _ & _ & Hprod'); [by intros|].
      pose proof (evaluates_det _ _ _ Hrun Hrun') as [= ->].
      simpl in Hprod. unfold representable. rewrite Hf. f_equal. nia.
    + pose proof (prime_factors_first_raise n d e Hn Hd Hf) as Hraise.
      by pose proof (evaluates_det _ _ _ Hrun Hraise).
    + by destruct (float_of_Z_settled (n `div` d)).
Qed.

Lemma prime_factors_correct_iff_witness :
  2 ≤ 2 ^ 60 ∧ least_divisor (2 ^ 60) 2 ∧
  ∃ factors, prime_factors (2 ^ 60) ⇓ Return factors ∧
             Forall Z.prime factors ∧ Sorted Z.le factors ∧
             product factors = 2 ^ 60.
Proof.
  assert (Hd : least_divisor (2 ^ 60) 2).
  { apply least_divisor_2; [lia|]. by exists (2 ^ 59). }
  split; [lia|]. split; [exact Hd|].
  apply (prime_factors_correct_iff (2 ^ 60) 2 ltac:(lia) Hd). reflexivity.
Defined.

(** X7: [prime_factors] inverts the product on nondecreasing lists of primes
    below [2^54]: the call on the product of such a list returns the
    list. *)
Theorem prime_factors_of_product ps :
  Forall Z.prime ps → Sorted Z.le ps → product ps < 2 ^ 54 →
  prime_factors (product ps) ⇓ Return ps.
Proof.
  intros Hps Hsorted Hlt.
  pose proof (product_primes_pos ps Hps) as Hpos.
  destruct (prime_factors_exact (product ps)) as (l & Hrun & Hl & Hs & Hprod);
    [lia|].
  assert (l = ps) as ->; [|done].
  apply (Sorted_unique Z.le); [done.. |].
  by apply prime_factorisation_unique.
Qed.

Lemma prime_factors_of_product_witness :
  Forall Z.prime [2; 2; 3; 7] ∧ Sorted Z.le [2; 2; 3; 7] ∧
  product [2; 2; 3; 7] < 2 ^ 54 ∧
  prime_factors (product [2; 2; 3; 7]) ⇓ Return [2; 2; 3; 7].
Proof.
  assert (Hps : Forall Z.prime [2; 2; 3; 7]).
  { apply (bool_decide_unpack _). by vm_compute. }
  assert (Hs : Sorted Z.le [2; 2; 3; 7]).
  { apply (bool_decide_unpack _). by vm_compute. }
  split; [exact Hps|]. split; [exact Hs|]. split; [reflexivity|].
  apply (prime_factors_of_product [2; 2; 3; 7] Hps Hs). reflexivity.
Defined.

(** * The threshold of OverflowError *)

(** The conversion overflows from the midpoint between the largest double
    and [2^1024] on. *)
Lemma float_of_Z_overflow_iff q :
  1 ≤ q →
  float_of_Z q = Raise OverflowError ↔ 2 ^ 1024 - 2 ^ 970 ≤ q.
Proof.
  intros Hq. unfold float_of_Z. rewrite Z.abs_eq by lia.
  pose proof (Z.log2_spec q ltac:(lia)) as [Hlo Hhi].
  case_bool_decide as He.
  { split; [done|]. intros Hth. exfalso.
    assert (2 ^ Z.succ (Z.log2 q) ≤ 2 ^ 53) by (apply Z.pow_le_mono_r; lia).
    lia. }
  set (e := Z.log2 q - 52) in *.
  assert (HL : Z.log2 q = 52 + e) by lia.
  rewrite HL in Hlo, Hhi. replace (Z.succ (52 + e)) with (53 + e) in Hhi by lia.
  rewrite Z.pow_add_r in Hlo, Hhi by lia.
  destruct (round_half_even_form q) as (m' & Hm' & Hb & _).
  { etrans; [|exact Hlo].
    assert (2 ^ 1 ≤ 2 ^ e) by (apply Z.pow_le_mono_r; lia). lia. }
  fold e in Hm'. cbv zeta in Hm'.
  destruct (Z.lt_trichotomy e 971) as [Hlt | [Heq | Hgt]].
  - assert (2 ^ e ≤ 2 ^ 970) by (apply Z.pow_le_mono_r; lia).
    assert (0 < 2 ^ e) by (apply Z.pow_pos_nonneg; lia).
    rewrite bool_decide_eq_false_2 by (rewrite Hm'; nia).
    split; [done|]. nia.
  - clear Hm' Hb m'. rewrite Heq in *. unfold round_half_even.
    pose proof (Z.div_mod q (2 ^ 971) ltac:(lia)) as Hdm.
    pose proof (Z.mod_pos_bound q (2 ^ 971) ltac:(lia)) as Hr.
    set (m := q `div` 2 ^ 971) in *. set (r := q `mod` 2 ^ 971) in *.
    change (971 - 1) with 970.
    assert (2 ^ 52 ≤ m < 2 ^ 53) by lia.
    assert (Hev : Z.even m = true → m ≠ 2 ^ 53 - 1).
    { intros Hev ->. done. }
    repeat case_bool_decide; try destruct (Z.even m) eqn:Hevm;
      try specialize (Hev eq_refl); split; try done; try lia.
  - assert (2 ^ 972 ≤ 2 ^ e) by (apply Z.pow_le_mono_r; lia).
    rewrite bool_decide_eq_true_2 by (rewrite Hm'; nia).
    split; [lia | done].
Qed.

Lemma prime_factors_threshold n d :
  2 ≤ n → least_divisor n d →
  if decide (2 ^ 1024 - 2 ^ 970 ≤ n `div` d)
  then prime_factors n ⇓ Raise OverflowError
  else ∃ factors, prime_factors n ⇓ Return factors.
Proof.
  intros Hn Hd.
  destruct (least_divisor_quotient n d Hn Hd) as (Hq & _ & _).
  pose proof (float_of_Z_overflow_iff _ Hq) as Hiff.
  destruct (float_of_Z (n `div` d)) as [n' | e |] eqn:Hf.
  - rewrite decide_False; [|intros Hth; by apply Hiff in Hth].
    destruct (loop_run_first_division n d n' 2 Hn Hd Hf)
      as (l & Hrun & _); [by intros|].
    by eexists.
  - pose proof (prime_factors_first_raise n d e Hn Hd Hf) as Hraise.
    apply float_of_Z_exn in Hf as Hov. subst e.
    rewrite decide_True; [done | by apply Hiff].
  - by destruct (float_of_Z_settled (n `div` d)).
Qed.

(** X8: for [n ≥ 2] with least divisor [d], [prime_factors n] and [mu n]
    raise [OverflowError] exactly when [n / d] is at least
    [2^1024 - 2^970], the midpoint between the largest double and
    [2^1024]. *)
Theorem overflow_threshold n d :
  2 ≤ n → least_divisor n d →
  (prime_factors n ⇓ Raise OverflowError ↔ 2 ^ 1024 - 2 ^ 970 ≤ n `div` d) ∧
  (mu n ⇓ Raise OverflowError ↔ 2 ^ 1024 - 2 ^ 970 ≤ n `div` d).
Proof.
  intros Hn Hd. pose proof (prime_factors_threshold n d Hn Hd) as Hth.
  destruct (decide (2 ^ 1024 - 2 ^ 970 ≤ n `div` d)) as [Hge | Hlt].
  - split; (split; [done|]); intros _; [done|].
    by apply mu_evaluates in Hth.
  - destruct Hth as [factors Hrun]. split; (split; [|done]); intros Hraise.
    + by pose proof (evaluates_det _ _ _ Hrun Hraise).
    + apply mu_evaluates in Hrun.
      by pose proof (evaluates_det _ _ _ Hrun Hraise).
Qed.

Lemma overflow_threshold_witness :
  2 ≤ 2 ^ 1025 - 2 ^ 971 ∧ least_divisor (2 ^ 1025 - 2 ^ 971) 2 ∧
  (prime_factors (2 ^ 1025 - 2 ^ 971) ⇓ Raise OverflowError ↔
   2 ^ 1024 - 2 ^ 970 ≤ (2 ^ 1025 - 2 ^ 971) `div` 2) ∧
  (mu (2 ^ 1025 - 2 ^ 971) ⇓ Raise OverflowError ↔
   2 ^ 1024 - 2 ^ 970 ≤ (2 ^ 1025 - 2 ^ 971) `div` 2).
Proof.
  assert (Hd : least_divisor (2 ^ 1025 - 2 ^ 971) 2).
  { apply least_divisor_2; [lia|]. exists (2 ^ 1024 - 2 ^ 970). lia. }
  split; [lia|]. split; [exact Hd|].
  exact (overflow_threshold (2 ^ 1025 - 2 ^ 971) 2 ltac:(lia) Hd).
Defined.

(** * A nonzero answer of mu *)

Lemma float_of_Z_inexact q n' :
  1 ≤ q → float_of_Z q = Return n' → n' ≠ q → (4 | n').
Proof.
  intros Hq Hf Hne. unfold float_of_Z in Hf. rewrite Z.abs_eq in Hf by lia.
  case_bool_decide as He; [by injection Hf|].
  case_bool_decide as Hov; [done|]. injection Hf as <-.
  rewrite Z.sgn_pos, Z.mul_1_l in Hne |- * by lia.
  pose proof (Z.log2_spec q ltac:(lia)) as [Hlo _].
  assert (H53 : 2 ^ 53 ≤ q).
  { etrans; [|exact Hlo]. apply Z.pow_le_mono_r; lia. }
  destruct (round_half_even_form q H53) as (m' & Hm' & _ & Hex & Hin).
  cbv zeta in Hm'. rewrite Hm' in Hne |- *.
  destruct (decide (q `mod` 2 ^ (Z.log2 q - 52) = 0)) as [Hz | Hnz];
    [|by apply Hin].
  destruct Hne. by apply Hex.
Qed.

Lemma mu_of_factors_correct factors n :
  Forall Z.prime factors → product factors = n → NoDup factors →
  squarefree n ∧
  ∀ ps, distinct_prime_factors n ps →
        mu_of_factors factors = (-1) ^ Z.of_nat (length ps).
Proof.
  intros Hfs <- Hnd.
  destruct (product_distinct_primes factors Hnd Hfs) as [Hsq [_ Hiff]].
  split; [done|]. intros ps [Hps Hiff'].
  rewrite mu_of_factors_NoDup by done.
  assert (Hperm : factors ≡ₚ ps).
  { apply NoDup_Permutation; [done.. |]. intros x. by rewrite Hiff, Hiff'. }
  by rewrite Hperm.
Qed.

(** The factors returned for [n] are primes, and their product is [n] when
    no factor is repeated. *)
Lemma prime_factors_NoDup_product n factors :
  1 ≤ n → prime_factors n ⇓ Return factors →
  Forall Z.prime factors ∧ (NoDup factors → product factors = n).
Proof.
  intros Hn Hrun. destruct (decide (n = 1)) as [-> | Hn1].
  { assert (Hnil : prime_factors 1 ⇓ Return []).
    { apply prime_factors_run. constructor. }
    by pose proof (evaluates_det _ _ _ Hrun Hnil) as [= ->]. }
  destruct (least_divisor_exists n) as (d & Hd & _); [lia|].
  destruct (least_divisor_quotient n d) as (Hq & Hnd & _); [lia | done |].
  destruct (float_of_Z (n `div` d)) as [n' | e |] eqn:Hf;
    [| |by destruct (float_of_Z_settled (n `div` d))].
  - destruct (loop_run_first_division n d n' 2 ltac:(lia) Hd Hf)
      as (l & Hrun' & Hl & _ & _ & Hprod); [by intros|].
    pose proof (evaluates_det _ _ _ Hrun Hrun') as [= ->].
    split; [constructor; [by eapply least_divisor_prime | done]|].
    intros Hnodup. simpl. rewrite Hprod.
    destruct (decide (n' = n `div` d)) as [-> | Hne]; [lia|].
    exfalso. apply NoDup_cons in Hnodup as [_ Hnodup].
    apply (primes_NoDup_squarefree l Hl) in Hnodup.
    apply (Hnodup 2).
    + apply (bool_decide_unpack _). by vm_compute.
    + rewrite Hprod. change (2 * 2) with 4. by eapply float_of_Z_inexact.
  - pose proof (prime_factors_first_raise n d e ltac:(lia) Hd Hf) as Hraise.
    by pose proof (evaluates_det _ _ _ Hrun Hraise).
Qed.

(** X10: a nonzero answer of [mu] is right for every [n ≥ 1]: when [mu n]
    returns [v ≠ 0], [n] is squarefree and [v] is [(-1)^k] for the number
    [k] of primes dividing [n].  The rounding of the division can only
    turn an answer into 0. *)
Theorem mu_nonzero_sound n v :
  1 ≤ n → mu n ⇓ Return v → v ≠ 0 →
  squarefree n ∧
  ∀ ps, distinct_prime_factors n ps → v = (-1) ^ Z.of_nat (length ps).
Proof.
  intros Hn Hmu Hv.
  destruct (prime_factors_terminates n Hn) as (r & Hrun & _).
  pose proof (mu_evaluates n r Hrun) as Hmu'.
  pose proof (evaluates_det _ _ _ Hmu Hmu') as Hr.
  destruct r as [factors | e |]; [|done..]. simpl in Hr. injection Hr as ->.
  destruct (prime_factors_NoDup_product n factors Hn Hrun) as [Hfs Hprod].
  destruct (decide (NoDup factors)) as [Hnd | Hdup];
    [|by rewrite mu_of_factors_dup in Hv].
  apply mu_of_factors_correct; [done | by apply Hprod | done].
Qed.

Lemma mu_nonzero_sound_witness :
  1 ≤ 30 ∧ mu 30 ⇓ Return (-1) ∧ -1 ≠ 0 ∧
  squarefree 30 ∧
  ∀ ps, distinct_prime_factors 30 ps → -1 = (-1) ^ Z.of_nat (length ps).
Proof.
  assert (Hmu : mu 30 ⇓ Return (-1)) by run_with 20%nat.
  split; [lia|]. split; [exact Hmu|]. split; [lia|].
  exact (mu_nonzero_sound 30 (-1) ltac:(lia) Hmu ltac:(lia)).
Defined.

(** * The range of M *)

Lemma mu_below_threshold n :
  1 ≤ n < 2 ^ 1025 - 2 ^ 971 → ∃ v, mu n ⇓ Return v ∧ -1 ≤ v ≤ 1.
Proof.
  intros [Hn Hlt].
  assert (∃ factors, prime_factors n ⇓ Return factors) as [factors Hrun].
  { destruct (decide (n = 1)) as [-> | Hn1].
    { exists []. apply prime_factors_run. constructor. }
    destruct (least_divisor_exists n) as (d & Hd & _); [lia|].
    destruct (least_divisor_quotient n d) as (Hq & Hnd & _); [lia | done |].
    pose proof (prime_factors_threshold n d ltac:(lia) Hd) as Hth.
    destruct Hd as (Hd2 & _).
    rewrite decide_False in Hth; [done|]. nia. }
  apply mu_evaluates in Hrun. eexists. split; [exact Hrun|].
  pose proof (mu_of_factors_range factors). lia.
Qed.

Lemma mu_raises_from_threshold k :
  1 ≤ k → mu k ⇓ Raise OverflowError → 2 ^ 1025 - 2 ^ 971 ≤ k.
Proof.
  intros Hk Hraise.
  destruct (decide (2 ^ 1025 - 2 ^ 971 ≤ k)) as [|Hlt]; [done|].
  destruct (mu_below_threshold k) as (v & Hv & _); [lia|].
  by pose proof (evaluates_det _ _ _ Hv Hraise).
Qed.

Lemma mu_raises_at_threshold : mu (2 ^ 1025 - 2 ^ 971) ⇓ Raise OverflowError.
Proof.
  assert (Hd : least_divisor (2 ^ 1025 - 2 ^ 971) 2).
  { apply least_divisor_2; [lia|]. exists (2 ^ 1024 - 2 ^ 970). lia. }
  pose proof (prime_factors_threshold (2 ^ 1025 - 2 ^ 971) 2 ltac:(lia) Hd)
    as Hth.
  rewrite decide_True in Hth.
  - by apply mu_evaluates in Hth.
  - replace (2 ^ 1025 - 2 ^ 971) with ((2 ^ 1024 - 2 ^ 970) * 2) by lia.
    rewrite Z.div_mul by lia. lia.
Qed.

(** [M n] raises when one of its calls of [mu] does. *)
Lemma M_raises n :
  1 ≤ n →
  M n ⇓ Raise OverflowError ↔
  ∃ k, 1 ≤ k ≤ n ∧ mu k ⇓ Raise OverflowError.
Proof.
  intros Hn. induction (Z.lt_wf 1 n) as [n _ IH].
  destruct (mu_terminates n Hn) as (rmu & Hmu & Hsmu).
  destruct (decide (n = 1)) as [-> | Hn1].
  { pose proof (M_evaluates_1 rmu Hmu) as HM. split.
    - intros Hraise. exists 1. split; [lia|].
      by rewrite <- (evaluates_det _ _ _ HM Hraise).
    - intros (k & Hk & Hraise). assert (k = 1) as -> by lia.
      by rewrite <- (evaluates_det _ _ _ Hmu Hraise). }
  destruct (M_terminates (n - 1)) as (rM & HM & HsM); [lia|].
  pose proof (M_evaluates_step n rmu rM Hn1 Hmu HM) as Hstep.
  specialize (IH (n - 1) ltac:(lia) ltac:(lia)). split.
  - intros Hraise. pose proof (evaluates_det _ _ _ Hstep Hraise) as Heq.
    destruct rmu as [a | e |]; [| |done].
    + destruct rM as [b | e |]; [done | |done].
      simpl in Heq. injection Heq as ->.
      destruct (proj1 IH HM) as (k & Hk & Hkr). exists k. split; [lia | done].
    + simpl in Heq. injection Heq as ->. exists n. split; [lia | done].
  - intros (k & Hk & Hkr). destruct (decide (k = n)) as [-> | Hkn].
    + rewrite (evaluates_det _ _ _ Hmu Hkr) in Hstep. exact Hstep.
    + assert (HMr : M (n - 1) ⇓ Raise OverflowError).
      { apply IH. exists k. split; [lia | done]. }
      rewrite (evaluates_det _ _ _ HM HMr) in Hstep.
      destruct rmu as [a | e |]; [done | | done].
      simpl in Hsmu. by subst e.
Qed.

(** X12: [M n] raises [OverflowError] exactly when one of [mu 1], ...,
    [mu n] does, which is exactly when [n] is at least [2^1025 - 2^971],
    twice the least quotient that overflows. *)
Theorem M_overflow_iff n :
  1 ≤ n →
  (M n ⇓ Raise OverflowError ↔
   ∃ k, 1 ≤ k ≤ n ∧ mu k ⇓ Raise OverflowError) ∧
  (M n ⇓ Raise OverflowError ↔ 2 ^ 1025 - 2 ^ 971 ≤ n).
Proof.
  intros Hn. pose proof (M_raises n Hn) as Hiff. split; [done|].
  rewrite Hiff. split.
  - intros (k & Hk & Hraise).
    pose proof (mu_raises_from_threshold k ltac:(lia) Hraise). lia.
  - intros Hge. exists (2 ^ 1025 - 2 ^ 971).
    split; [lia | apply mu_raises_at_threshold].
Qed.

Lemma M_overflow_iff_witness :
  1 ≤ 2 ^ 1025 ∧
  (M (2 ^ 1025) ⇓ Raise OverflowError ↔
   ∃ k, 1 ≤ k ≤ 2 ^ 1025 ∧ mu k ⇓ Raise OverflowError) ∧
  (M (2 ^ 1025) ⇓ Raise OverflowError ↔ 2 ^ 1025 - 2 ^ 971 ≤ 2 ^ 1025).
Proof. split; [lia|]. apply (M_overflow_iff (2 ^ 1025)). lia. Defined.

(** X13: below [2^1025 - 2^971] every [M n] returns an integer, between
    [-n] and [n]. *)
Theorem M_bounds n :
  1 ≤ n < 2 ^ 1025 - 2 ^ 971 → ∃ v, M n ⇓ Return v ∧ - n ≤ v ≤ n.
Proof.
  intros [Hn Hhi]. revert Hhi.
  induction (Z.lt_wf 1 n) as [n _ IH]; intros Hhi.
  destruct (mu_below_threshold n) as (a & Hmu & Ha); [lia|].
  destruct (decide (n = 1)) as [-> | Hn1].
  { exists a. split; [by apply M_evaluates_1 | lia]. }
  destruct (IH (n - 1)) as (b & HM & Hb); [lia.. |].
  exists (a + b). split; [|lia].
  by apply (M_evaluates_step n (Return a) (Return b)).
Qed.

Lemma M_bounds_witness :
  1 ≤ 2 ^ 60 < 2 ^ 1025 - 2 ^ 971 ∧
  ∃ v, M (2 ^ 60) ⇓ Return v ∧ - 2 ^ 60 ≤ v ≤ 2 ^ 60.
Proof. split; [lia|]. apply (M_bounds (2 ^ 60)). lia. Defined.

(** * The Mertens function *)

Lemma mu_moebius_value n v :
  1 ≤ n < 2 ^ 54 → mu n ⇓ Return v → moebius_value n v.
Proof.
  intros Hn Hmu.
  destruct (prime_factors_exact n Hn) as (l & Hrun & Hl & _ & Hprod).
  apply mu_evaluates in Hrun. simpl in Hrun.
  pose proof (evaluates_det _ _ _ Hmu Hrun) as [= ->]. split.
  - intros (p & Hp & Hpp). apply mu_of_factors_dup.
    intros Hnd. apply (primes_NoDup_squarefree l Hl) in Hnd.
    apply (Hnd p Hp). by rewrite Hprod.
  - intros ps Hsq Hps.
    assert (Hnd : NoDup l).
    { apply primes_NoDup_squarefree; [done|]. by rewrite Hprod. }
    by apply (mu_of_factors_correct l n).
Qed.

(** X14: below [2^54], [M n] is the Mertens function: the sum over
    [k = 1, ..., n] of the values of the Möbius function at [k]. *)
Theorem M_exact n :
  1 ≤ n < 2 ^ 54 →
  ∃ vs, Forall2 moebius_value (seqZ 1 n) vs ∧
        M n ⇓ Return (foldr Z.add 0 vs).
Proof.
  intros [Hn Hhi]. revert Hhi.
  induction (Z.lt_wf 1 n) as [n _ IH]; intros Hhi.
  destruct (mu_below_threshold n) as (a & Hmu & _); [lia|].
  pose proof (mu_moebius_value n a ltac:(lia) Hmu) as Ha.
  destruct (decide (n = 1)) as [-> | Hn1].
  { exists [a]. split.
    - change (seqZ 1 1) with [1]. constructor; [done | constructor].
    - apply M_evaluates_1. simpl. by replace (a + 0) with a by lia. }
  destruct (IH (n - 1)) as (vs & Hvs & HM); [lia.. |].
  exists (vs ++ [a]). split.
  - replace n with (n - 1 + 1) at 1 by lia. rewrite seqZ_snoc by lia.
    apply Forall2_app; [done|]. replace (n - 1 + 1) with n by lia.
    constructor; [done | constructor].
  - rewrite sum_snoc, Z.add_comm.
    by apply (M_evaluates_step n (Return a) (Return _)).
Qed.

Lemma M_exact_witness :
  1 ≤ 10 < 2 ^ 54 ∧
  ∃ vs, Forall2 moebius_value (seqZ 1 10) vs ∧
        M 10 ⇓ Return (foldr Z.add 0 vs).
Proof. split; [lia|]. apply (M_exact 10). lia. Defined.

(** * The list of the third cell *)





